(** * txt-frequency: the classification and aggregation pipeline of [main.go]

    A shallow embedding of the program: Go strings are byte strings
    ([string]), [map[string]int] is a [gmap string Z] whose counters wrap
    at 64 bits, slices are lists.  The library functions the program calls
    ([utf8], [regexp], [strings], [sort], [os]/[bufio]) are modelled in
    modules of their own, the program's functions keep their Go names. *)

From stdpp Require Import gmap strings list sorting.
From Stdlib Require Import ZArith Ascii String Lia.

Local Open Scope Z_scope.

(** ** Bytes and runes *)

(** A Go [byte] is an [ascii]; [code] is its numeric value. *)
Definition code (b : ascii) : Z := Z.of_N (N_of_ascii b).

(** A Go [string] seen as its bytes, and back. *)
Abbreviation bytes := list_ascii_of_string.
Abbreviation gostring := string_of_list_ascii.

Module utf8.

Definition rune := Z.

Definition RuneError : rune := 0xFFFD.
Definition RuneSelf : Z := 0x80.

(** [lo <= b <= hi] on byte values. *)
Definition between (lo hi b : Z) : bool := (lo <=? b) && (b <=? hi).

(** Continuation byte: [locb = 0x80], [hicb = 0xBF]. *)
Definition continuation (b : Z) : bool := between 0x80 0xBF b.

(** The accept range of the second byte, by leading byte (the table
    [acceptRanges] of package utf8). *)
Definition accept (c0 : Z) : Z * Z :=
  if c0 =? 0xE0 then (0xA0, 0xBF)
  else if c0 =? 0xED then (0x80, 0x9F)
  else if c0 =? 0xF0 then (0x90, 0xBF)
  else if c0 =? 0xF4 then (0x80, 0x8F)
  else (0x80, 0xBF).

(** [utf8.DecodeRuneInString]: the first rune of [p] and its width in
    bytes; [(RuneError, 0)] on the empty string and [(RuneError, 1)] on
    an encoding that is invalid or cut short. *)
Definition DecodeRuneInString (p : list ascii) : rune * nat :=
  match p with
  | [] => (RuneError, 0%nat)
  | b0 :: p1 =>
      let c0 := code b0 in
      if c0 <? RuneSelf then (c0, 1%nat)
      else if between 0xC2 0xDF c0 then
        match p1 with
        | b1 :: _ =>
            if continuation (code b1)
            then ((c0 - 0xC0) * 64 + (code b1 - 0x80), 2%nat)
            else (RuneError, 1%nat)
        | _ => (RuneError, 1%nat)
        end
      else if between 0xE0 0xEF c0 then
        match p1 with
        | b1 :: b2 :: _ =>
            let '(lo, hi) := accept c0 in
            if between lo hi (code b1) && continuation (code b2)
            then ((c0 - 0xE0) * 4096 + (code b1 - 0x80) * 64
                  + (code b2 - 0x80), 3%nat)
            else (RuneError, 1%nat)
        | _ => (RuneError, 1%nat)
        end
      else if between 0xF0 0xF4 c0 then
        match p1 with
        | b1 :: b2 :: b3 :: _ =>
            let '(lo, hi) := accept c0 in
            if between lo hi (code b1) && continuation (code b2)
               && continuation (code b3)
            then ((c0 - 0xF0) * 262144 + (code b1 - 0x80) * 4096
                  + (code b2 - 0x80) * 64 + (code b3 - 0x80), 4%nat)
            else (RuneError, 1%nat)
        | _ => (RuneError, 1%nat)
        end
      else (RuneError, 1%nat)
  end.

End utf8.

Module unicode.

Import utf8.

(** The script table [unicode.Han] (Unicode 15.0.0), which [\p{Han}]
    denotes: inclusive code point ranges. *)
Definition Han : list (Z * Z) :=
  [ (0x2e80, 0x2e99); (0x2e9b, 0x2ef3); (0x2f00, 0x2fd5); (0x3005, 0x3005);
    (0x3007, 0x3007); (0x3021, 0x3029); (0x3038, 0x303b); (0x3400, 0x4dbf);
    (0x4e00, 0x9fff); (0xf900, 0xfa6d); (0xfa70, 0xfad9);
    (0x16fe2, 0x16fe3); (0x16ff0, 0x16ff1); (0x20000, 0x2a6df);
    (0x2a700, 0x2b739); (0x2b740, 0x2b81d); (0x2b820, 0x2cea1);
    (0x2ceb0, 0x2ebe0); (0x2f800, 0x2fa1d); (0x30000, 0x3134a);
    (0x31350, 0x323af) ].

(** [unicode.Is(table, r)]. *)
Definition Is (table : list (Z * Z)) (r : rune) : bool :=
  existsb (fun '(lo, hi) => between lo hi r) table.

End unicode.

Module regexp.

Import utf8.

(** The syntax trees of package regexp/syntax that the four patterns of
    the program parse to. *)
Inductive Regexp : Type :=
| OpLiteral (r : rune)
| OpCharClass (cls : rune -> bool)
| OpWordBoundary
| OpConcat (r1 r2 : Regexp)
| OpStar (r : Regexp)
| OpPlus (r : Regexp)
| OpQuest (r : Regexp).

(** A position in the subject string: the byte just before it, which is
    all [\b] needs of the left context, and the bytes from it on. *)
Record input : Type := Input { before : option ascii; after : list ascii }.

(** Offset of a position, counted from the end of the subject. *)
Definition remaining (i : input) : nat := List.length (after i).

Definition start (s : list ascii) : input := Input None s.

(** [syntax.IsWordChar]: the ASCII word characters, [0-9A-Za-z_]. *)
Definition IsWordChar (r : rune) : bool :=
  between (code "A") (code "Z") r || between (code "a") (code "z") r
  || between (code "0") (code "9") r || (r =? code "_").

(** The rune to the left of a position is a word character exactly when
    the byte to its left is one: a rune of several bytes, or an invalid
    byte, ends with a byte above [RuneSelf]. *)
Definition word_before (i : input) : bool :=
  match before i with Some b => IsWordChar (code b) | None => false end.

Definition word_after (i : input) : bool :=
  match after i with b :: _ => IsWordChar (code b) | [] => false end.

(** [step]: the rune at a position, the bytes it takes, and the position
    after it; [None] at the end of the text. *)
Definition step (i : input) : option (rune * list ascii * input) :=
  match DecodeRuneInString (after i) with
  | (_, O) => None
  | (r, w) =>
      let m := take w (after i) in
      Some (r, m, Input (last m) (drop w (after i)))
  end.

(** Greedy iteration of [f]: the matches of [f*] from [i], longest
    chain of iterations first.  An iteration that consumes nothing is
    not repeated; [fuel] bounds the number of consuming iterations. *)
Fixpoint iterate (f : input -> list (list ascii * input)) (fuel : nat)
    (i : input) : list (list ascii * input) :=
  match fuel with
  | O => [([], i)]
  | S n =>
      ('(m1, i1) ← f i;
       match m1 with
       | [] => []
       | _ => '(m2, i2) ← iterate f n i1; [(m1 ++ m2, i2)]
       end) ++ [([], i)]
  end.

(** All the ways [re] matches at position [i], as (matched bytes,
    position after), in the order a backtracking search tries them: the
    head is the match of leftmost-first semantics. *)
Fixpoint run (re : Regexp) (i : input) : list (list ascii * input) :=
  match re with
  | OpLiteral r =>
      match step i with
      | Some (r', m, i') => if r' =? r then [(m, i')] else []
      | None => []
      end
  | OpCharClass cls =>
      match step i with
      | Some (r, m, i') => if cls r then [(m, i')] else []
      | None => []
      end
  | OpWordBoundary =>
      if xorb (word_before i) (word_after i) then [([], i)] else []
  | OpConcat r1 r2 =>
      '(m1, i1) ← run r1 i; '(m2, i2) ← run r2 i1; [(m1 ++ m2, i2)]
  | OpStar r => iterate (run r) (remaining i) i
  | OpPlus r =>
      '(m1, i1) ← run r i;
      '(m2, i2) ← iterate (run r) (remaining i1) i1; [(m1 ++ m2, i2)]
  | OpQuest r => run r i ++ [([], i)]
  end.

(** [doExecute]: the leftmost match at or after position [pos], as
    (start position, matched bytes, end position). *)
Fixpoint doExecute (re : Regexp) (fuel : nat) (pos : input)
    : option (input * list ascii * input) :=
  match run re pos with
  | (m, stop) :: _ => Some (pos, m, stop)
  | [] =>
      match fuel with
      | O => None
      | S n =>
          match step pos with
          | Some (_, _, next) => doExecute re n next
          | None => None
          end
      end
  end.

(** [allMatches]: successive non-overlapping matches; an empty match
    right after the previous match is ignored. *)
Fixpoint allMatches (re : Regexp) (fuel : nat) (pos : input)
    (prevMatchEnd : option nat) : list (list ascii) :=
  match fuel with
  | O => []
  | S n =>
      match doExecute re (remaining pos) pos with
      | None => []
      | Some (first, m, stop) =>
          if (remaining stop =? remaining pos)%nat then
            let accept :=
              negb (bool_decide (prevMatchEnd = Some (remaining first))) in
            let rest :=
              match step pos with
              | Some (_, _, next) =>
                  allMatches re n next (Some (remaining stop))
              | None => []
              end in
            if accept then m :: rest else rest
          else m :: allMatches re n stop (Some (remaining stop))
      end
  end.

(** [re.FindAllString(s, -1)]. *)
Definition FindAllString (re : Regexp) (s : string) : list string :=
  gostring <$> allMatches re (S (S (String.length s))) (start (bytes s)) None.

End regexp.

Import utf8 regexp.

(** ** The patterns of [main] *)

Definition is_alnum (r : rune) : bool :=
  between (code "a") (code "z") r || between (code "A") (code "Z") r
  || between (code "0") (code "9") r.

(** [\s] of RE2: [\t\n\f\r ]. *)
Definition is_perl_space (r : rune) : bool :=
  (r =? 9) || (r =? 10) || (r =? 12) || (r =? 13) || (r =? code " ").

(** [[\p{Han}]] *)
Definition class_Han (r : rune) : bool := unicode.Is unicode.Han r.

(** [[a-zA-Z0-9']] *)
Definition class_word (r : rune) : bool := is_alnum r || (r =? code "'").

(** [[\w\s'-]] *)
Definition class_phrase (r : rune) : bool :=
  IsWordChar r || is_perl_space r || (r =? code "'") || (r =? code "-").

(** [[\p{Han}]] *)
Definition chineseCharacterRegex : Regexp := OpCharClass class_Han.

(** [[\p{Han}]+] *)
Definition chineseWordsRegex : Regexp := OpPlus (OpCharClass class_Han).

(** [\b[a-zA-Z0-9']+(?:-[a-zA-Z0-9']+)?\b] *)
Definition englishWordRegex : Regexp :=
  OpConcat OpWordBoundary
    (OpConcat (OpPlus (OpCharClass class_word))
       (OpConcat
          (OpQuest (OpConcat (OpLiteral (code "-"))
                      (OpPlus (OpCharClass class_word))))
          OpWordBoundary)).

(** [\b[a-zA-Z0-9][\w\s'-]*[a-zA-Z0-9]\b] *)
Definition englishPhrasesRegex : Regexp :=
  OpConcat OpWordBoundary
    (OpConcat (OpCharClass is_alnum)
       (OpConcat (OpStar (OpCharClass class_phrase))
          (OpConcat (OpCharClass is_alnum) OpWordBoundary))).

(** ** Package strings *)

Module strings.

(** One byte of the ASCII branch of [strings.ToLower]: ['A'..'Z'] is
    moved by ['a' - 'A']. *)
Definition lower (b : ascii) : ascii :=
  if between (code "A") (code "Z") (code b)
  then ascii_of_N (N_of_ascii b + 32) else b.

(** [strings.ToLower] on an ASCII string, the only strings the program
    passes to it (lemmas [englishWord_ascii], [englishPhrase_ascii]):
    every byte of ['A'..'Z'] is lowered, the others are kept. *)
Definition ToLower (s : string) : string := gostring (lower <$> bytes s).

(** The table [asciiSpace]: ['\t'], ['\n'], ['\v'], ['\f'], ['\r'], [' ']. *)
Definition asciiSpace (b : ascii) : bool :=
  between 9 13 (code b) || (code b =? code " ").

Fixpoint trimLeft (p : list ascii) : list ascii :=
  match p with
  | b :: p' => if asciiSpace b then trimLeft p' else p
  | [] => []
  end.

(** [strings.TrimSpace] on an ASCII string: [s[start:stop]], where
    [start] is the first byte that is not a space and [stop] follows the
    last one. *)
Definition TrimSpace (s : string) : string :=
  gostring (rev (trimLeft (rev (trimLeft (bytes s))))).

End strings.

(** ** The accumulators of [main] *)

(** Go's [int] on a 64-bit platform: two's complement wrap-around. *)
Definition int (z : Z) : Z := (z + 2 ^ 63) mod 2 ^ 64 - 2 ^ 63.

Definition maxInt : Z := 2 ^ 63 - 1.

(** [m[key]], the zero value when [key] is absent. *)
Definition index (m : gmap string Z) (key : string) : Z := default 0 (m !! key).

(** [m[key]++] *)
Definition increment (m : gmap string Z) (key : string) : gmap string Z :=
  <[key := int (index m key + 1)]> m.

(** The four frequency maps and the four lists of [main]. *)
Record state : Type := State {
  chineseCharFreq : gmap string Z;
  chineseWordsFreq : gmap string Z;
  englishWordFreq : gmap string Z;
  englishPhrasesFreq : gmap string Z;
  chineseCharList : list string;
  chineseWordsList : list string;
  englishWordList : list string;
  englishPhrasesList : list string
}.

Definition initial : state := State ∅ ∅ ∅ ∅ [] [] [] [].

(** The body of the [for scanner.Scan()] loop on one line: four loops over
    the matches of the four patterns, each with its own key. *)
Definition scan_line (st : state) (line : string) : state :=
  let chineseCharMatches := FindAllString chineseCharacterRegex line in
  let '(chineseCharFreq, chineseCharList) :=
    fold_left (fun '(freq, lst) char => (increment freq char, lst ++ [char]))
      chineseCharMatches (chineseCharFreq st, chineseCharList st) in
  let chineseWordMatches := FindAllString chineseWordsRegex line in
  let '(chineseWordsFreq, chineseWordsList) :=
    fold_left (fun '(freq, lst) word => (increment freq word, lst ++ [word]))
      chineseWordMatches (chineseWordsFreq st, chineseWordsList st) in
  let englishWordMatches := FindAllString englishWordRegex line in
  let '(englishWordFreq, englishWordList) :=
    fold_left (fun '(freq, lst) word =>
                 let normalizedWord := strings.ToLower word in
                 (increment freq normalizedWord, lst ++ [word]))
      englishWordMatches (englishWordFreq st, englishWordList st) in
  let englishPhraseMatches := FindAllString englishPhrasesRegex line in
  let '(englishPhrasesFreq, englishPhrasesList) :=
    fold_left (fun '(freq, lst) phrase =>
                 let normalizedPhrase :=
                   strings.ToLower (strings.TrimSpace phrase) in
                 (increment freq normalizedPhrase, lst ++ [phrase]))
      englishPhraseMatches (englishPhrasesFreq st, englishPhrasesList st) in
  State chineseCharFreq chineseWordsFreq englishWordFreq englishPhrasesFreq
        chineseCharList chineseWordsList englishWordList englishPhrasesList.

(** The whole loop, over the lines the scanner delivers. *)
Definition scan (lines : list string) : state := fold_left scan_line lines initial.

(** ** Package sort *)

Module sort.

(** What [sort.Slice] asks of [less]: a strict weak ordering. *)
Record StrictWeak {A : Type} (less : A -> A -> bool) : Prop := {
  less_irrefl : forall a, less a a = false;
  less_trans : forall a b c, less a b = true -> less b c = true -> less a c = true;
  less_incomparable : forall a b c,
    less a b = false -> less b c = false -> less a c = false
}.

(** [sort.Slice(x, less)] as the function from the slice to its sorted
    contents.  The algorithm depends on the Go release and is not stable;
    the interface keeps what every release guarantees: the result is a
    rearrangement of [x] in which no element is less than the one before
    it.  [less] compares elements; in Go it is handed their indices. *)
Class Sorter : Type := {
  Slice : forall {A : Type}, list A -> (A -> A -> bool) -> list A;
  Slice_permutation : forall (A : Type) (x : list A) less, Slice x less ≡ₚ x;
  Slice_sorted : forall (A : Type) (x : list A) less,
    StrictWeak less -> Sorted (fun a b => less b a = false) (Slice x less)
}.

(** The inner loop of [insertionSortLessFunc]: [x] moves left past every
    neighbour it is less than.  [left] holds the elements to the left of
    [x], nearest first. *)
Fixpoint sink {A : Type} (less : A -> A -> bool) (x : A) (left : list A) : list A :=
  match left with
  | y :: left' => if less x y then y :: sink less x left' else x :: left
  | [] => [x]
  end.

(** [insertionSortLessFunc], which is all [sort.Slice] runs on a slice
    of at most 12 elements (6 before Go 1.19). *)
Definition insertionSort {A : Type} (data : list A) (less : A -> A -> bool) : list A :=
  rev (fold_left (fun left x => sink less x left) data []).

End sort.

(** ** [sortByFrequency] *)

Record kv : Type := KV { Key : string; Value : Z }.

(** The body of [sortByFrequency] once [range freqMap] has delivered the
    entries in the order [entries]. *)
Definition sortByFrequency_from `{sorter : sort.Sorter} (entries : list (string * Z)) : list string :=
  let sortedPairs := (fun '(k, v) => KV k v) <$> entries in
  let sortedPairs :=
    sort.Slice sortedPairs (fun i j => Value i >? Value j) in
  Key <$> sortedPairs.

(** [range] over a map visits every entry once, in an order the language
    leaves open and may change from one loop to the next. *)
Definition range (freqMap : gmap string Z) (entries : list (string * Z)) : Prop :=
  entries ≡ₚ map_to_list freqMap.

(** [sortByFrequency freqMap] can return [sortedKeys]. *)
Definition sortByFrequency `{sorter : sort.Sorter} (freqMap : gmap string Z)
    (sortedKeys : list string) : Prop :=
  exists entries, range freqMap entries /\ sortedKeys = sortByFrequency_from entries.

(** ** Standard output and the file system *)

Module os.

(** How a path answers [os.Create] and the writes that follow. *)
Inductive sink : Type :=
| Writable
    (** created, every write succeeds *)
| CreateFails (err : string)
    (** [os.Create] returns [err] *)
| WriteFails (room : nat) (err : string)
    (** created; after [room] bytes a write returns [err], and so does
        every later write and the flush *).

(** The part of the world the program acts on: what it has printed and
    the contents of the files. *)
Record world : Type := World {
  stdout : list string;
  files : gmap string string
}.

(** [fmt.Println] and [fmt.Printf], given the text they print. *)
Definition Print (text : string) (w : world) : world :=
  World (stdout w ++ [text]) (files w).

End os.

Import os.

Local Open Scope string_scope.
Local Open Scope list_scope.

(** The line terminator. *)
Definition LF : string := String (ascii_of_nat 10) EmptyString.

(** What the loop of [writeToFile] hands to the writer: every item
    followed by a newline. *)
Definition records (data : list string) : string :=
  fold_right (fun item rest => item +:+ LF +:+ rest) EmptyString data.

(** [writeToFile]: on a failed [os.Create] a message and nothing else; on
    success the file is truncated and receives the records, as far as the
    writes succeed.  The results of [WriteString] and [Flush] are dropped. *)
Definition writeToFile (fs : string -> sink) (filePath : string)
    (data : list string) (w : world) : world :=
  match fs filePath with
  | CreateFails err =>
      Print ("Error creating file " +:+ filePath +:+ ": " +:+ err +:+ LF) w
  | Writable => World (stdout w) (<[filePath := records data]> (files w))
  | WriteFails room _ =>
      World (stdout w)
        (<[filePath := gostring (take room (bytes (records data)))]> (files w))
  end.

(** ** [main] *)

(** What the collaborators of [main] answer in one run: the file dialog,
    [os.Open], and the scanner (the lines it delivers before it stops, and
    the error it stopped on, if any). *)
Record answers : Type := Answers {
  inputFile : string;
  dialog_err : option string;
  open_err : option string;
  lines : list string;
  scanner_err : option string
}.

Definition chineseFileDedup : string := "deduplicated_chinese.txt".
Definition chineseFileDup : string := "duplicated_chinese.txt".
Definition englishFileDedup : string := "deduplicated_english.txt".
Definition englishFileDup : string := "duplicated_english.txt".

(** The end of [main], after a scan without error: the two rankings and
    the four writes. *)
Definition report `{sorter : sort.Sorter} (st : state) (fs : string -> sink)
    (w w' : world) : Prop :=
  exists chineseCharDedupSorted englishWordDedupSorted,
    sortByFrequency (chineseCharFreq st) chineseCharDedupSorted /\
    sortByFrequency (englishWordFreq st) englishWordDedupSorted /\
    let w := writeToFile fs chineseFileDedup chineseCharDedupSorted w in
    let w := writeToFile fs chineseFileDup (chineseCharList st) w in
    let w := writeToFile fs englishFileDedup englishWordDedupSorted w in
    let w := writeToFile fs englishFileDup (englishWordList st) w in
    w' = Print ("All output files written successfully." +:+ LF) w.

(** [main] takes the world from [w] to [w']. *)
Definition main `{sorter : sort.Sorter} (a : answers) (fs : string -> sink)
    (w w' : world) : Prop :=
  let w := Print ("Select the input file:" +:+ LF) w in
  match dialog_err a with
  | Some err => w' = Print ("Error selecting input file: " +:+ err +:+ LF) w
  | None =>
      if decide (inputFile a = EmptyString) then w' = Print ("No input file selected." +:+ LF) w
      else
        let w := Print ("Selected input file: " +:+ inputFile a +:+ LF) w in
        match open_err a with
        | Some err => w' = Print ("Error opening input file: " +:+ err +:+ LF) w
        | None =>
            let st := scan (lines a) in
            match scanner_err a with
            | Some err =>
                w' = Print ("Error reading input file: " +:+ err +:+ LF) w
            | None => report st fs w w'
            end
        end
  end.

(** ** The vocabulary of the specification *)

(** The four lexical categories. *)
Inductive category : Type :=
| chinese_character
| chinese_word
| english_word
| english_phrase.

(** The pattern [main] matches for a category. *)
Definition pattern (c : category) : Regexp :=
  match c with
  | chinese_character => chineseCharacterRegex
  | chinese_word => chineseWordsRegex
  | english_word => englishWordRegex
  | english_phrase => englishPhrasesRegex
  end.

(** The tokens of a category in the whole input, in scan order. *)
Definition tokens (c : category) (lines : list string) : list string :=
  line ← lines; FindAllString (pattern c) line.

(** The map and the list [main] keeps for a category. *)
Definition FrequencyTable (c : category) (st : state) : gmap string Z :=
  match c with
  | chinese_character => chineseCharFreq st
  | chinese_word => chineseWordsFreq st
  | english_word => englishWordFreq st
  | english_phrase => englishPhrasesFreq st
  end.

Definition DuplicatedList (c : category) (st : state) : list string :=
  match c with
  | chinese_character => chineseCharList st
  | chinese_word => chineseWordsList st
  | english_word => englishWordList st
  | english_phrase => englishPhrasesList st
  end.

(** The Normalizer as the specification words it: identity on the Chinese
    categories, lowercase for English words, trim then lowercase for
    English phrases. *)
Definition normalize (c : category) (raw : string) : string :=
  match c with
  | chinese_character | chinese_word => raw
  | english_word => strings.ToLower raw
  | english_phrase => strings.ToLower (strings.TrimSpace raw)
  end.

(** The Aggregator as the specification words it: for each token in scan
    order, increment the count of its normalized key and append its raw
    text. *)
Definition aggregate (c : category) (toks : list string)
    (acc : gmap string Z * list string) : gmap string Z * list string :=
  fold_left (fun '(table, lst) tok =>
               (increment table (normalize c tok), lst ++ [tok])) toks acc.

(** The sum of the counts of a table. *)
Definition total (table : gmap string Z) : Z :=
  map_fold (fun _ count acc => count + acc) 0 table.

(** Every rune the pattern [re] can consume satisfies [P]. *)
Fixpoint within (P : rune -> Prop) (re : Regexp) : Prop :=
  match re with
  | OpLiteral r => P r
  | OpCharClass cls => forall r, cls r = true -> P r
  | OpWordBoundary => True
  | OpConcat r1 r2 => within P r1 /\ within P r2
  | OpStar r | OpPlus r | OpQuest r => within P r
  end.

(** No count of a table is negative. *)
Definition counts_nonneg (table : gmap string Z) : Prop :=
  map_Forall (fun _ count => (0 <= count)%Z) table.

(** The scan went through: a file was chosen and opened, and the scanner
    stopped at the end of the input, not on an error. *)
Definition scanned (a : answers) : Prop :=
  dialog_err a = None /\ inputFile a <> EmptyString /\
  open_err a = None /\ scanner_err a = None.

(** What [main] has printed when the scan starts. *)
Definition greeted (a : answers) (w : world) : world :=
  Print ("Selected input file: " +:+ inputFile a +:+ LF)
    (Print ("Select the input file:" +:+ LF) w).

(** What the destination [filePath] holds after [writeToFile], given what
    it held before: the decision lies with the sink of that path alone. *)
Definition delivered (fs : string -> sink) (filePath : string)
    (data : list string) (old : option string) : option string :=
  match fs filePath with
  | Writable => Some (records data)
  | CreateFails _ => old
  | WriteFails room _ => Some (gostring (take room (bytes (records data))))
  end.


(** A run on the one line [cat cat dog] in which the device of
    [duplicated_english.txt] is full. *)
Definition cat_cat_dog : answers :=
  Answers "input.txt" None None ["cat cat dog"] None.

Definition disk_full (filePath : string) : sink :=
  if decide (filePath = englishFileDup)
  then WriteFails 0 "no space left on device" else Writable.

Definition blank : world := World [] ∅.

(** A table with two counts that differ, and one with a tie. *)
Definition cat_dog : gmap string Z := {[ "cat" := 2%Z; "dog" := 1%Z ]}.
Definition tie : gmap string Z := {[ "a" := 1%Z; "b" := 1%Z ]}.

(** A run whose scanner fails after the first line. *)
Definition torn : answers :=
  Answers "input.txt" None None ["cat cat dog"] (Some "unexpected EOF").

(** A run in which [deduplicated_chinese.txt] cannot be created. *)
Definition read_only (filePath : string) : sink :=
  if decide (filePath = chineseFileDedup)
  then CreateFails "permission denied" else Writable.


(** How often [key] occurs in a list of keys. *)
Definition occurrences (key : string) (keys : list string) : nat :=
  List.length (filter (fun k => k = key) keys).

(** The keys under which the tokens of a category are counted, in scan
    order. *)
Definition keys_of (c : category) (lines : list string) : list string :=
  normalize c <$> tokens c lines.

(** The four destinations of [main], in the order it writes them. *)
Definition destinations : list string :=
  [chineseFileDedup; chineseFileDup; englishFileDedup; englishFileDup].

(** The last line [main] prints when it gets to the writes. *)
Definition success : string := "All output files written successfully." +:+ LF.

(** What [writeToFile] prints for a path: a line when the file cannot be
    created, nothing otherwise. *)
Definition complaint (fs : string -> sink) (filePath : string) : list string :=
  match fs filePath with
  | CreateFails err =>
      ["Error creating file " +:+ filePath +:+ ": " +:+ err +:+ LF]
  | _ => []
  end.

(** A string without a line terminator. *)
Definition newline_free (s : string) : Prop :=
  Forall (fun b => code b <> 10%Z) (bytes s).

(** A run on an empty file. *)
Definition empty_file : answers := Answers "input.txt" None None [] None.


(** The tokens [toks] lie in [s] one after the other, from left to right
    and without overlap, with whatever lies between them. *)
Inductive scattered : list (list ascii) -> list ascii -> Prop :=
| scattered_nil (s : list ascii) : scattered [] s
| scattered_cons (gap tok : list ascii) (toks : list (list ascii))
    (s : list ascii) :
    scattered toks s -> scattered (tok :: toks) (gap ++ tok ++ s).

(** The runes from a position on, each with the bytes it is decoded
    from, as a [for range] loop over the string would see them. *)
Fixpoint chunks (fuel : nat) (i : input) : list (rune * list ascii) :=
  match fuel with
  | O => []
  | S n =>
      match step i with
      | Some (r, m, i') => (r, m) :: chunks n i'
      | None => []
      end
  end.

(** The runes of a string. *)
Definition runes_of (s : string) : list (rune * list ascii) :=
  chunks (String.length s) (start (bytes s)).

(** The bytes of the runes of the Han script among [cs], rune by rune. *)
Definition Han_bytes (cs : list (rune * list ascii)) : list (list ascii) :=
  snd <$> filter (fun c => class_Han c.1 = true) cs.

(** ** The Normalizer in the words of the specification *)

(** White space at the ends of an ASCII string: tab, line feed, vertical
    tab, form feed, carriage return and space. *)
Definition white (b : ascii) : Prop := code b ∈ [9; 10; 11; 12; 13; 32]%Z.

(** [key] is the lowercase of [raw]: byte for byte, a capital letter of
    the Latin alphabet is replaced by its small letter, 32 further on, and
    every other byte is kept. *)
Definition lowercase_of (key raw : list ascii) : Prop :=
  Forall2 (fun k r =>
             ((code "A" <= code r <= code "Z")%Z /\ code k = (code r + 32)%Z)
             \/ (~ (code "A" <= code r <= code "Z")%Z /\ k = r))
          key raw.

(** [core] is [raw] without its leading and trailing white space: what
    was cut off at either end is white space, and [core] neither starts
    nor ends with white space. *)
Definition trimmed_of (core raw : list ascii) : Prop :=
  exists pre post,
    raw = pre ++ core ++ post /\ Forall white pre /\ Forall white post /\
    (forall b, head core = Some b -> ~ white b) /\
    (forall b, last core = Some b -> ~ white b).

(** [key] is the NormalizedKey of the raw text [raw] in category [c]:
    the raw text itself for the Chinese categories, its lowercase for
    English words, the lowercase of the trimmed text for English phrases. *)
Definition NormalizedKey (c : category) (raw key : string) : Prop :=
  match c with
  | chinese_character | chinese_word => key = raw
  | english_word => lowercase_of (bytes key) (bytes raw)
  | english_phrase =>
      exists core, trimmed_of core (bytes raw) /\ lowercase_of (bytes key) core
  end.

(** An English category. *)
Definition english (c : category) : Prop := c = english_word \/ c = english_phrase.

(** An ASCII string: on these [strings.ToLower] and [strings.TrimSpace]
    take their ASCII branches. *)
Definition ascii_only (s : string) : Prop :=
  Forall (fun b => (code b < RuneSelf)%Z) (bytes s).


(** * Properties *)

(** ** The scan builds, per category, what the Aggregator describes *)

Section Aggregator.

Local Open Scope Z_scope.

Lemma scan_line_aggregate (c : category) (st : state) (line : string) :
  (FrequencyTable c (scan_line st line), DuplicatedList c (scan_line st line))
  = aggregate c (FindAllString (pattern c) line)
      (FrequencyTable c st, DuplicatedList c st).
Proof.
  unfold scan_line.
  destruct (fold_left _ (FindAllString chineseCharacterRegex line) _) eqn:E1.
  destruct (fold_left _ (FindAllString chineseWordsRegex line) _) eqn:E2.
  destruct (fold_left _ (FindAllString englishWordRegex line) _) eqn:E3.
  destruct (fold_left _ (FindAllString englishPhrasesRegex line) _) eqn:E4.
  destruct c; cbn [FrequencyTable DuplicatedList]; symmetry; assumption.
Qed.

Lemma aggregate_app (c : category) (xs ys : list string) acc :
  aggregate c (xs ++ ys) acc = aggregate c ys (aggregate c xs acc).
Proof. unfold aggregate. apply fold_left_app. Qed.

Lemma tokens_cons (c : category) (line : string) (lines : list string) :
  tokens c (line :: lines) = FindAllString (pattern c) line ++ tokens c lines.
Proof. reflexivity. Qed.

Lemma fold_scan_line_aggregate (c : category) (lines : list string) (st : state) :
  (FrequencyTable c (fold_left scan_line lines st),
   DuplicatedList c (fold_left scan_line lines st))
  = aggregate c (tokens c lines) (FrequencyTable c st, DuplicatedList c st).
Proof.
  revert st. induction lines as [|line lines IH]; intros st; [done|].
  cbn [fold_left]. rewrite IH, scan_line_aggregate.
  by rewrite tokens_cons, aggregate_app.
Qed.

Lemma scan_aggregate (c : category) (lines : list string) :
  (FrequencyTable c (scan lines), DuplicatedList c (scan lines))
  = aggregate c (tokens c lines) (∅, []).
Proof.
  unfold scan. rewrite fold_scan_line_aggregate. by destruct c.
Qed.

(** The list of a category holds the raw tokens, in scan order. *)
Lemma aggregate_list (c : category) (toks : list string) table lst :
  (aggregate c toks (table, lst)).2 = lst ++ toks.
Proof.
  revert table lst. induction toks as [|tok toks IH]; intros table lst.
  - by rewrite app_nil_r.
  - cbn. unfold aggregate in IH. rewrite IH. by rewrite <- app_assoc.
Qed.

Lemma int_small (z : Z) : - 2 ^ 63 <= z <= maxInt -> int z = z.
Proof. unfold int, maxInt. intros Hz. rewrite Z.mod_small; lia. Qed.

Lemma total_empty : total ∅ = 0.
Proof. unfold total. apply map_fold_empty. Qed.

Lemma total_insert_fresh (table : gmap string Z) key count :
  table !! key = None -> total (<[key := count]> table) = count + total table.
Proof.
  intros Hnone. unfold total.
  rewrite map_fold_insert_L; [done | intros; lia | done].
Qed.

Lemma total_insert (table : gmap string Z) key count :
  total (<[key := count]> table) = total table - index table key + count.
Proof.
  unfold index. destruct (table !! key) as [old|] eqn:Hkey; cbn.
  - rewrite <- (insert_delete_eq table key count).
    rewrite <- (insert_id table key old Hkey) at 2.
    rewrite <- (insert_delete_eq table key old).
    rewrite !total_insert_fresh by apply lookup_delete_eq. lia.
  - rewrite total_insert_fresh by done. lia.
Qed.

Lemma total_nonneg (table : gmap string Z) :
  counts_nonneg table -> 0 <= total table.
Proof.
  induction table as [|key count table Hfresh IH] using map_ind; intros Hall.
  - by rewrite total_empty.
  - rewrite total_insert_fresh by done.
    apply map_Forall_insert in Hall as [Hcount Hrest]; [|done].
    specialize (IH Hrest). lia.
Qed.

Lemma index_le_total (table : gmap string Z) key :
  counts_nonneg table -> 0 <= index table key <= total table.
Proof.
  intros Hall. unfold index.
  destruct (table !! key) as [count|] eqn:Hkey; cbn.
  - pose proof (Hall _ _ Hkey) as Hcount. cbn in Hcount.
    rewrite <- (insert_id table key count Hkey).
    rewrite <- (insert_delete_eq table key count).
    rewrite total_insert_fresh by apply lookup_delete_eq.
    assert (0 <= total (delete key table)); [|lia].
    apply total_nonneg. intros k v Hk.
    apply lookup_delete_Some in Hk as [_ Hk]. exact (Hall _ _ Hk).
  - pose proof (total_nonneg table Hall). lia.
Qed.

(** One step keeps "sum of counts = length of the list", as long as the
    length is an [int]. *)
Lemma aggregate_total (c : category) (toks : list string) table lst :
  counts_nonneg table ->
  total table = Z.of_nat (List.length lst) ->
  Z.of_nat (List.length lst + List.length toks) <= maxInt ->
  counts_nonneg (aggregate c toks (table, lst)).1 /\
  total (aggregate c toks (table, lst)).1
  = Z.of_nat (List.length (aggregate c toks (table, lst)).2).
Proof.
  revert table lst. induction toks as [|tok toks IH]; intros table lst Hall Hsum Hlen.
  - done.
  - cbn [aggregate fold_left]. cbn [List.length] in Hlen.
    pose proof (index_le_total table (normalize c tok) Hall) as Hidx.
    assert (Hint : int (index table (normalize c tok) + 1)
                   = index table (normalize c tok) + 1).
    { apply int_small. unfold maxInt in *. lia. }
    apply IH.
    + unfold increment. rewrite Hint.
      apply map_Forall_insert_2; [lia | done].
    + unfold increment. rewrite Hint, total_insert, length_app. cbn. lia.
    + rewrite length_app. cbn. lia.
Qed.

End Aggregator.

(** ** Insertion sort meets the interface of [sort.Slice] *)

Section InsertionSort.

Context {A : Type} (less : A -> A -> bool).

(** The order of a slice as [less] sees it: nothing is less than its
    left neighbour. *)
Let ordered : A -> A -> Prop := fun a b => less b a = false.

(** The same, read from the right end of the sorted prefix. *)
Let ordered_rev : A -> A -> Prop := fun a b => less a b = false.

Lemma sink_permutation (x : A) (left : list A) :
  sort.sink less x left ≡ₚ x :: left.
Proof.
  induction left as [|y left IH]; cbn; [done|].
  destruct (less x y); [|done].
  rewrite IH. apply Permutation_swap.
Qed.

Lemma sink_head (x : A) (left : list A) :
  hd_error (sort.sink less x left) = Some x
  \/ hd_error (sort.sink less x left) = hd_error left.
Proof. destruct left as [|y left]; cbn; [|destruct (less x y)]; auto. Qed.

Lemma sink_sorted (x : A) (left : list A) :
  (forall a b, less a b = true -> less b a = false) ->
  Sorted ordered_rev left -> Sorted ordered_rev (sort.sink less x left).
Proof.
  intros Hasym. induction left as [|y left IH]; intros Hsorted; cbn.
  - repeat constructor.
  - destruct (less x y) eqn:Hxy.
    + apply Sorted_inv in Hsorted as [Hleft Hhd].
      constructor; [by apply IH|].
      destruct (sink_head x left) as [Hx|Hsame].
      * destruct (sort.sink less x left); [constructor|].
        injection Hx as ->. constructor. by apply Hasym.
      * destruct (sort.sink less x left), left; cbn in Hsame;
          try discriminate; [constructor|].
        injection Hsame as ->. by apply HdRel_inv in Hhd; constructor.
    + constructor; [done|]. by constructor.
Qed.

Lemma insertion_prefix_permutation (data left : list A) :
  fold_left (fun left x => sort.sink less x left) data left
  ≡ₚ rev data ++ left.
Proof.
  revert left. induction data as [|x data IH]; intros left; cbn; [done|].
  by rewrite IH, sink_permutation, <- app_assoc.
Qed.

Lemma insertion_prefix_sorted (data left : list A) :
  (forall a b, less a b = true -> less b a = false) ->
  Sorted ordered_rev left ->
  Sorted ordered_rev (fold_left (fun left x => sort.sink less x left) data left).
Proof.
  intros Hasym. revert left.
  induction data as [|x data IH]; intros left Hsorted; cbn; [done|].
  by apply IH, sink_sorted.
Qed.

Lemma Sorted_snoc (R : A -> A -> Prop) (l : list A) (x : A) :
  Sorted R l -> (forall y, last l = Some y -> R y x) -> Sorted R (l ++ [x]).
Proof.
  induction l as [|a l IH]; intros Hsorted Hlast; cbn.
  - repeat constructor.
  - apply Sorted_inv in Hsorted as [Hl Hhd]. constructor.
    + apply IH; [done|]. intros y Hy. apply Hlast.
      destruct l; [discriminate|done].
    + destruct l as [|b l]; cbn.
      * constructor. by apply Hlast.
      * constructor. by apply HdRel_inv in Hhd.
Qed.

Lemma Sorted_rev_flip (l : list A) :
  Sorted ordered_rev l -> Sorted ordered (rev l).
Proof.
  induction l as [|a l IH]; intros Hsorted; cbn; [constructor|].
  apply Sorted_inv in Hsorted as [Hl Hhd].
  apply Sorted_snoc; [by apply IH|].
  intros y Hy. destruct l as [|b l]; [discriminate|].
  cbn [rev] in Hy. rewrite last_snoc in Hy. injection Hy as ->.
  by apply HdRel_inv in Hhd.
Qed.

Lemma insertionSort_permutation (data : list A) :
  sort.insertionSort data less ≡ₚ data.
Proof.
  unfold sort.insertionSort.
  by rewrite <- Permutation_rev, insertion_prefix_permutation, app_nil_r,
    <- Permutation_rev.
Qed.

Lemma insertionSort_sorted (data : list A) :
  sort.StrictWeak less -> Sorted ordered (sort.insertionSort data less).
Proof.
  intros [Hirrefl Htrans _]. apply Sorted_rev_flip, insertion_prefix_sorted.
  - intros a b Hab. destruct (less b a) eqn:Hba; [|done].
    pose proof (Htrans _ _ _ Hab Hba) as Haa. by rewrite Hirrefl in Haa.
  - constructor.
Qed.

End InsertionSort.

(** [sort.Slice] as it runs on short slices. *)
#[export] Instance insertion : sort.Sorter := {|
  sort.Slice := @sort.insertionSort;
  sort.Slice_permutation := fun A x less => insertionSort_permutation less x;
  sort.Slice_sorted := fun A x less => insertionSort_sorted less x
|}.

(** ** The Ranker *)

Section Ranker.

Context `{sorter : sort.Sorter}.

Local Open Scope Z_scope.

(** The [less] of [sortByFrequency]. *)
Let by_value : kv -> kv -> bool := fun i j => Value i >? Value j.

Let pair_of : string * Z -> kv := fun '(k, v) => KV k v.

Lemma by_value_StrictWeak : sort.StrictWeak by_value.
Proof.
  subst by_value. split.
  - intros a. destruct (Z.gtb_spec (Value a) (Value a)); [lia|done].
  - intros a b c Hab Hbc.
    destruct (Z.gtb_spec (Value a) (Value b)); [|done].
    destruct (Z.gtb_spec (Value b) (Value c)); [|done].
    destruct (Z.gtb_spec (Value a) (Value c)); [done|lia].
  - intros a b c Hab Hbc.
    destruct (Z.gtb_spec (Value a) (Value b)); [done|].
    destruct (Z.gtb_spec (Value b) (Value c)); [done|].
    destruct (Z.gtb_spec (Value a) (Value c)); [lia|done].
Qed.

Lemma Key_pair_of (entries : list (string * Z)) :
  Key <$> (pair_of <$> entries) = entries.*1.
Proof.
  rewrite <- list_fmap_compose. apply list_fmap_ext. by intros _ [k v] _.
Qed.

Lemma Value_pair_of (entries : list (string * Z)) :
  Value <$> (pair_of <$> entries) = entries.*2.
Proof.
  rewrite <- list_fmap_compose. apply list_fmap_ext. by intros _ [k v] _.
Qed.

(** The slice after [sort.Slice], for a given order of [range]. *)
Let sortedPairs (entries : list (string * Z)) : list kv :=
  sort.Slice (pair_of <$> entries) by_value.

Lemma sortByFrequency_from_eq (entries : list (string * Z)) :
  sortByFrequency_from entries = Key <$> sortedPairs entries.
Proof. reflexivity. Qed.

Lemma sortedPairs_entry (freqMap : gmap string Z) entries p :
  range freqMap entries -> p ∈ sortedPairs entries ->
  freqMap !! Key p = Some (Value p).
Proof.
  intros Hrange Hp. subst sortedPairs. cbn in Hp.
  rewrite sort.Slice_permutation in Hp.
  apply list_elem_of_fmap in Hp as [[k v] [-> Hkv]].
  rewrite Hrange in Hkv. by apply elem_of_map_to_list in Hkv.
Qed.

Lemma sortedKeys_permutation (freqMap : gmap string Z) entries :
  range freqMap entries ->
  sortByFrequency_from entries ≡ₚ (map_to_list freqMap).*1.
Proof.
  intros Hrange. rewrite sortByFrequency_from_eq. subst sortedPairs. cbn.
  by rewrite sort.Slice_permutation, Key_pair_of, Hrange.
Qed.

(** The counts read along the returned keys are the values of the sorted
    slice. *)
Lemma sortedKeys_counts (freqMap : gmap string Z) entries :
  range freqMap entries ->
  index freqMap <$> sortByFrequency_from entries = Value <$> sortedPairs entries.
Proof.
  intros Hrange. rewrite sortByFrequency_from_eq, <- list_fmap_compose.
  apply list_fmap_ext. intros i p Hp. cbn. unfold index.
  by rewrite (sortedPairs_entry freqMap entries p Hrange)
    by (by eapply list_elem_of_lookup_2).
Qed.

Lemma sortedKeys_counts_sorted (freqMap : gmap string Z) entries :
  range freqMap entries ->
  Sorted (fun a b => b <= a) (index freqMap <$> sortByFrequency_from entries).
Proof.
  intros Hrange. rewrite (sortedKeys_counts _ _ Hrange).
  eapply Sorted_fmap; [|apply sort.Slice_sorted, by_value_StrictWeak].
  intros p q Hpq. subst by_value. cbn in Hpq.
  by destruct (Z.gtb_spec (Value q) (Value p)).
Qed.

Lemma sortedKeys_counts_permutation (freqMap : gmap string Z) entries :
  range freqMap entries ->
  index freqMap <$> sortByFrequency_from entries ≡ₚ (map_to_list freqMap).*2.
Proof.
  intros Hrange. rewrite (sortedKeys_counts _ _ Hrange). subst sortedPairs. cbn.
  by rewrite sort.Slice_permutation, Value_pair_of, Hrange.
Qed.

Lemma Sorted_adjacent {B : Type} (R : B -> B -> Prop) (l : list B) i a b :
  Sorted R l -> l !! i = Some a -> l !! S i = Some b -> R a b.
Proof.
  intros Hsorted. revert i. induction Hsorted as [|x l Hl IH Hhd]; intros i Ha Hb.
  - done.
  - destruct i as [|i]; cbn in Ha, Hb.
    + injection Ha as ->. destruct l as [|y l]; [done|].
      cbn in Hb. injection Hb as ->. by apply HdRel_inv in Hhd.
    + by eapply IH.
Qed.

Lemma fmap_eq_inj_on {B C : Type} (f : B -> C) (l1 l2 : list B) :
  (forall x y, x ∈ l1 -> y ∈ l2 -> f x = f y -> x = y) ->
  f <$> l1 = f <$> l2 -> l1 = l2.
Proof.
  revert l2. induction l1 as [|x l1 IH]; intros [|y l2] Hinj Heq;
    try done.
  cbn in Heq. injection Heq as Hxy Hrest. f_equal.
  - apply Hinj; [set_solver | set_solver | done].
  - apply IH; [|done]. intros a b Ha Hb. apply Hinj; set_solver.
Qed.

Lemma sortedKeys_elem (freqMap : gmap string Z) entries key :
  range freqMap entries ->
  key ∈ sortByFrequency_from entries <-> is_Some (freqMap !! key).
Proof.
  intros Hrange. rewrite (sortedKeys_permutation freqMap entries Hrange). split.
  - intros ([k v] & -> & Hin%elem_of_map_to_list)%list_elem_of_fmap.
    by exists v.
  - intros [v Hv]. apply list_elem_of_fmap.
    exists (key, v). split; [done|]. by apply elem_of_map_to_list.
Qed.

Lemma sortByFrequency_total (freqMap : gmap string Z) :
  exists sortedKeys, sortByFrequency freqMap sortedKeys.
Proof.
  exists (sortByFrequency_from (map_to_list freqMap)), (map_to_list freqMap).
  split; [unfold range|]; reflexivity.
Qed.

End Ranker.

(** ** The Tokenizer *)

(** Evaluate the codes of the character constants in the goal. *)
Ltac codes :=
  repeat match goal with
         | |- context [code (Ascii ?a ?b ?c ?d ?e ?f ?g ?h)] =>
             let x := eval vm_compute in (code (Ascii a b c d e f g h)) in
             change (code (Ascii a b c d e f g h)) with x
         | H : context [code (Ascii ?a ?b ?c ?d ?e ?f ?g ?h)] |- _ =>
             let x := eval vm_compute in (code (Ascii a b c d e f g h)) in
             change (code (Ascii a b c d e f g h)) with x in H
         end.

(** Turn the boolean tests on runes into linear arithmetic. *)
Ltac tests :=
  unfold continuation in *; unfold between in *; codes;
  rewrite ?andb_true_iff, ?orb_true_iff, ?andb_false_iff, ?orb_false_iff,
    ?Z.leb_le, ?Z.ltb_lt, ?Z.eqb_eq, ?Z.leb_gt, ?Z.ltb_ge, ?Z.eqb_neq in *.

Section Tokenizer.

Local Open Scope Z_scope.

Lemma code_range (b : ascii) : 0 <= code b < 256.
Proof. unfold code. pose proof (N_ascii_bounded b). lia. Qed.

(** A rune below [RuneSelf] is decoded from one byte, its own. *)
Lemma DecodeRuneInString_ascii (p : list ascii) (r : rune) (w : nat) :
  DecodeRuneInString p = (r, w) -> r < RuneSelf ->
  exists b rest, p = b :: rest /\ w = 1%nat /\ r = code b.
Proof.
  unfold DecodeRuneInString, RuneSelf, RuneError, accept.
  destruct p as [|b0 p1]; [intros [= <- <-]; lia|].
  destruct (code b0 <? 128) eqn:Hself; [intros [= <- <-] _; eauto|].
  intros Hdec Hr. exfalso. revert Hdec.
  repeat match goal with
         | |- context [match ?l with [] => _ | _ :: _ => _ end] => destruct l
         | |- context [if ?t then _ else _] => destruct t eqn:?
         | |- (let '(_, _) := ?t in _) = _ -> _ => destruct t eqn:?
         end;
    intros [= <- <-]; simplify_eq; tests; lia.
Qed.

(** The decoder consumes at least one byte of a string that has one,
    and never more than there are. *)
Lemma DecodeRuneInString_width (p : list ascii) (r : rune) (w : nat) :
  DecodeRuneInString p = (r, w) ->
  (w <= List.length p)%nat /\ (p <> [] -> (0 < w)%nat).
Proof.
  unfold DecodeRuneInString.
  destruct p as [|b0 p1]; [intros [= <- <-]; cbn; split; [lia|done]|].
  repeat match goal with
         | |- context [match ?l with [] => _ | _ :: _ => _ end] => destruct l
         | |- context [if ?t then _ else _] => destruct t eqn:?
         | |- (let '(_, _) := ?t in _) = _ -> _ => destruct t eqn:?
         end;
    intros [= <- <-]; cbn; split; intros; lia.
Qed.

(** What one step consumes is a non-empty prefix of what was left. *)
Lemma step_Some (i i' : input) (r : rune) (m : list ascii) :
  step i = Some (r, m, i') ->
  after i = m ++ after i' /\ m <> [] /\ before i' = last m.
Proof.
  unfold step. destruct (DecodeRuneInString (after i)) as [r0 w] eqn:Hdec.
  apply DecodeRuneInString_width in Hdec as [Hle Hpos].
  destruct w as [|w]; [done|]. intros [= <- <- <-]. cbn.
  rewrite take_drop. split; [done|]. split; [|done].
  destruct (after i); [cbn in Hle; lia | done].
Qed.

Lemma step_ascii (i i' : input) (r : rune) (m : list ascii) :
  step i = Some (r, m, i') -> r < RuneSelf ->
  exists b, m = [b] /\ code b = r.
Proof.
  unfold step. destruct (DecodeRuneInString (after i)) as [r0 w] eqn:Hdec.
  destruct w as [|w]; [done|]. intros [= <- <- <-] Hr.
  destruct (DecodeRuneInString_ascii _ _ _ Hdec Hr) as (b & rest & -> & [= ->] & ->).
  by exists b.
Qed.

Lemma run_OpConcat (r1 r2 : Regexp) (i i' : input) (m : list ascii) :
  (m, i') ∈ run (OpConcat r1 r2) i <->
  exists m1 i1 m2,
    (m1, i1) ∈ run r1 i /\ (m2, i') ∈ run r2 i1 /\ m = m1 ++ m2.
Proof.
  cbn [run]. rewrite list_elem_of_bind. split.
  - intros ([m1 i1] & Hin & H1). apply list_elem_of_bind in Hin as ([m2 i2] & Hin & H2).
    apply list_elem_of_singleton in Hin as [= -> ->]. by exists m1, i1, m2.
  - intros (m1 & i1 & m2 & H1 & H2 & ->). exists (m1, i1). split; [|done].
    apply list_elem_of_bind. exists (m2, i'). split; [|done].
    by apply list_elem_of_singleton.
Qed.

Lemma run_OpCharClass (cls : rune -> bool) (i i' : input) (m : list ascii) :
  (m, i') ∈ run (OpCharClass cls) i <->
  exists r, step i = Some (r, m, i') /\ cls r = true.
Proof.
  cbn [run]. destruct (step i) as [[[r m0] i0]|]; [|split; [by intros ?%elem_of_nil | by intros (? & ? & ?)]].
  destruct (cls r) eqn:Hcls.
  - rewrite list_elem_of_singleton. split.
    + intros [= -> ->]. by exists r.
    + by intros (r' & [= -> -> ->] & _).
  - split; [by intros ?%elem_of_nil|]. intros (r' & [= -> -> ->] & ?). congruence.
Qed.

Lemma run_OpLiteral (r : rune) (i i' : input) (m : list ascii) :
  (m, i') ∈ run (OpLiteral r) i <-> step i = Some (r, m, i').
Proof.
  cbn [run]. destruct (step i) as [[[r0 m0] i0]|]; [|split; [by intros ?%elem_of_nil | done]].
  destruct (Z.eqb_spec r0 r) as [->|Hne].
  - rewrite list_elem_of_singleton. split; by intros [= -> ->].
  - split; [by intros ?%elem_of_nil|]. by intros [= -> -> ->].
Qed.

Lemma run_OpWordBoundary (i i' : input) (m : list ascii) :
  (m, i') ∈ run OpWordBoundary i -> m = [] /\ i' = i.
Proof.
  cbn [run]. destruct (xorb _ _); [|by intros ?%elem_of_nil].
  by intros [= -> ->]%list_elem_of_singleton.
Qed.

(** What a chain of iterations matches is the concatenation of what the
    iterations match. *)
Lemma iterate_Forall (Q : ascii -> Prop) (f : input -> list (list ascii * input))
    (fuel : nat) (i i' : input) (m : list ascii) :
  (forall j j' m1, (m1, j') ∈ f j -> Forall Q m1) ->
  (m, i') ∈ iterate f fuel i -> Forall Q m.
Proof.
  intros Hf. revert i m. induction fuel as [|fuel IH]; intros i m; cbn [iterate].
  - by intros [= -> ->]%list_elem_of_singleton.
  - rewrite elem_of_app, list_elem_of_singleton, list_elem_of_bind.
    intros [([m1 i1] & Hin & H1)|[= -> ->]]; [|done].
    destruct m1 as [|b m1]; [by apply elem_of_nil in Hin|].
    apply list_elem_of_bind in Hin as ([m2 i2] & Hin & H2).
    apply list_elem_of_singleton in Hin as [= -> ->].
    change (Forall Q ((b :: m1) ++ m2)).
    apply Forall_app. split; [by eapply Hf | by eapply IH].
Qed.

(** A pattern whose classes hold only runes below [RuneSelf] matches
    byte for byte. *)
Lemma run_within (P : rune -> Prop) (re : Regexp) :
  (forall r, P r -> r < RuneSelf) -> within P re ->
  forall i i' m, (m, i') ∈ run re i -> Forall (fun b => P (code b)) m.
Proof.
  intros Hascii. induction re as [r|cls| |r1 IH1 r2 IH2|r IH|r IH|r IH];
    cbn [within]; intros Hre i i' m Hin.
  - apply run_OpLiteral in Hin.
    destruct (step_ascii _ _ _ _ Hin (Hascii _ Hre)) as (b & -> & <-) .
    repeat constructor. done.
  - apply run_OpCharClass in Hin as (r & Hstep & Hcls).
    destruct (step_ascii _ _ _ _ Hstep (Hascii _ (Hre _ Hcls))) as (b & -> & <-).
    repeat constructor. by apply Hre.
  - by apply run_OpWordBoundary in Hin as [-> _].
  - destruct Hre as [Hre1 Hre2].
    apply run_OpConcat in Hin as (m1 & i1 & m2 & H1 & H2 & ->).
    apply Forall_app. split; [by eapply IH1 | by eapply IH2].
  - cbn [run] in Hin. eapply iterate_Forall; [|done]. intros; by eapply IH.
  - cbn [run] in Hin. apply list_elem_of_bind in Hin as ([m1 i1] & Hin & H1).
    apply list_elem_of_bind in Hin as ([m2 i2] & Hin & H2).
    apply list_elem_of_singleton in Hin as [= -> ->].
    apply Forall_app. split; [by eapply IH|].
    eapply iterate_Forall; [|done]. intros; by eapply IH.
  - cbn [run] in Hin. apply elem_of_app in Hin as [Hin|[= -> ->]%list_elem_of_singleton];
      [by eapply IH | done].
Qed.

Lemma doExecute_Some (re : Regexp) (fuel : nat) (pos first stop : input)
    (m : list ascii) :
  doExecute re fuel pos = Some (first, m, stop) -> (m, stop) ∈ run re first.
Proof.
  revert pos. induction fuel as [|fuel IH]; intros pos; cbn [doExecute];
    destruct (run re pos) as [|[m0 i0] l] eqn:Hrun.
  - done.
  - intros [= -> -> ->]. rewrite Hrun. apply list_elem_of_here.
  - destruct (step pos) as [[[? ?] next]|]; [apply IH | done].
  - intros [= -> -> ->]. rewrite Hrun. apply list_elem_of_here.
Qed.

Lemma allMatches_elem (re : Regexp) (fuel : nat) (pos : input)
    (prevMatchEnd : option nat) (m : list ascii) :
  m ∈ allMatches re fuel pos prevMatchEnd ->
  exists first stop, (m, stop) ∈ run re first.
Proof.
  revert pos prevMatchEnd. induction fuel as [|fuel IH]; intros pos prev;
    cbn [allMatches]; [by intros ?%elem_of_nil|].
  destruct (doExecute re (remaining pos) pos) as [[[first m0] stop]|] eqn:Hexec;
    [|by intros ?%elem_of_nil].
  apply doExecute_Some in Hexec.
  assert (Hrest : m ∈ match step pos with
                      | Some (_, _, next) =>
                          allMatches re fuel next (Some (remaining stop))
                      | None => []
                      end -> exists first stop, (m, stop) ∈ run re first).
  { destruct (step pos) as [[[? ?] next]|]; [apply IH | by intros ?%elem_of_nil]. }
  destruct (remaining stop =? remaining pos)%nat.
  - destruct (negb _); [|done].
    intros [->|Hin]%elem_of_cons; [by exists first, stop | by apply Hrest].
  - intros [->|Hin]%elem_of_cons; [by exists first, stop | by eapply IH].
Qed.

(** Every token [FindAllString] returns is a match of the pattern at
    some position of the line. *)
Lemma FindAllString_elem (re : Regexp) (s tok : string) :
  tok ∈ FindAllString re s ->
  exists m first stop, tok = gostring m /\ (m, stop) ∈ run re first.
Proof.
  unfold FindAllString. intros (m & -> & Hin)%list_elem_of_fmap.
  apply allMatches_elem in Hin as (first & stop & Hin). by exists m, first, stop.
Qed.

(** *** The bounds on the searches are never reached *)

(** A property of single matches that holds of the empty match and of
    the concatenation of two matches holds of every chain of iterations. *)
Lemma iterate_chain (T : input -> list ascii -> input -> Prop)
    (f : input -> list (list ascii * input)) (fuel : nat) (i i' : input)
    (m : list ascii) :
  (forall j, T j [] j) ->
  (forall j1 j2 j3 m1 m2, T j1 m1 j2 -> T j2 m2 j3 -> T j1 (m1 ++ m2) j3) ->
  (forall j j' m1, (m1, j') ∈ f j -> T j m1 j') ->
  (m, i') ∈ iterate f fuel i -> T i m i'.
Proof.
  intros Hnil Happ Hf. revert i m.
  induction fuel as [|fuel IH]; intros i m; cbn [iterate].
  - intros [= -> ->]%list_elem_of_singleton. apply Hnil.
  - rewrite elem_of_app, list_elem_of_singleton, list_elem_of_bind.
    intros [([m1 i1] & Hin & H1)|[= -> ->]]; [|apply Hnil].
    destruct m1 as [|b m1]; [by apply elem_of_nil in Hin|].
    apply list_elem_of_bind in Hin as ([m2 i2] & Hin & H2).
    apply list_elem_of_singleton in Hin as [= -> ->].
    change (T i ((b :: m1) ++ m2) i2).
    eapply Happ; [by apply Hf | by apply IH].
Qed.

(** What a match consumes is a prefix of what was left of the subject. *)
Lemma run_after (re : Regexp) (i i' : input) (m : list ascii) :
  (m, i') ∈ run re i -> after i = m ++ after i'.
Proof.
  revert i i' m.
  induction re as [r|cls| |r1 IH1 r2 IH2|r IH|r IH|r IH]; intros i i' m Hin.
  - apply run_OpLiteral in Hin. by apply step_Some in Hin as [? _].
  - apply run_OpCharClass in Hin as (r & Hstep & _).
    by apply step_Some in Hstep as [? _].
  - by apply run_OpWordBoundary in Hin as [-> ->].
  - apply run_OpConcat in Hin as (m1 & i1 & m2 & H1 & H2 & ->).
    by rewrite (IH1 _ _ _ H1), (IH2 _ _ _ H2), app_assoc.
  - cbn [run] in Hin. revert Hin.
    apply (iterate_chain (fun j m j' => after j = m ++ after j')); [done| |done].
    intros j1 j2 j3 m1 m2 -> ->. by rewrite app_assoc.
  - cbn [run] in Hin. apply list_elem_of_bind in Hin as ([m1 i1] & Hin & H1).
    apply list_elem_of_bind in Hin as ([m2 i2] & Hin & H2).
    apply list_elem_of_singleton in Hin as [= -> ->].
    rewrite (IH _ _ _ H1), <- app_assoc. f_equal. revert H2.
    apply (iterate_chain (fun j m j' => after j = m ++ after j')); [done| |done].
    intros j1 j2 j3 m3 m4 -> ->. by rewrite app_assoc.
  - cbn [run] in Hin.
    apply elem_of_app in Hin as [Hin|[= -> ->]%list_elem_of_singleton];
      [by apply IH | done].
Qed.

Lemma run_remaining (re : Regexp) (i i' : input) (m : list ascii) :
  (m, i') ∈ run re i -> remaining i = (List.length m + remaining i')%nat.
Proof.
  intros Hin%run_after. unfold remaining. by rewrite Hin, length_app.
Qed.

Lemma step_remaining (i i' : input) (r : rune) (m : list ascii) :
  step i = Some (r, m, i') -> (remaining i' < remaining i)%nat.
Proof.
  intros (Hafter & Hm & _)%step_Some. unfold remaining.
  rewrite Hafter, length_app. destruct m; [done | cbn; lia].
Qed.

Lemma step_end (i : input) : remaining i = 0%nat -> step i = None.
Proof.
  unfold remaining, step. by destruct (after i).
Qed.

Lemma bind_nil {B C : Type} (l : list B) : l ≫= (fun _ : B => @nil C) = [].
Proof. induction l as [|x l IH]; [done | exact IH]. Qed.

(** At the end of the subject the only chain of iterations is the empty
    one. *)
Lemma iterate_end (f : input -> list (list ascii * input)) (fuel : nat)
    (i : input) :
  (forall j j' m1, (m1, j') ∈ f j -> after j = m1 ++ after j') ->
  remaining i = 0%nat -> iterate f fuel i = [([], i)].
Proof.
  intros Hf Hend. destruct fuel as [|fuel]; [done|]. cbn [iterate].
  match goal with |- ?chains ++ _ = _ => assert (Hnone : chains = []) end.
  { etransitivity; [|apply (bind_nil (f i))].
    apply Forall_bind_ext, Forall_forall. intros [m1 i1] Hin.
    destruct m1 as [|b m1]; [done|].
    apply Hf in Hin. unfold remaining in Hend. by rewrite Hin in Hend. }
  by rewrite Hnone.
Qed.

(** Past the number of bytes left, the bound on the iterations makes no
    difference. *)
Lemma iterate_fuel (f : input -> list (list ascii * input)) :
  (forall j j' m1, (m1, j') ∈ f j -> after j = m1 ++ after j') ->
  forall n1 n2 i,
    (remaining i <= n1)%nat -> (remaining i <= n2)%nat ->
    iterate f n1 i = iterate f n2 i.
Proof.
  intros Hf. induction n1 as [|n1 IH]; intros n2 i H1 H2.
  - rewrite !(iterate_end f _ i Hf); [done | lia | lia].
  - destruct n2 as [|n2].
    + rewrite !(iterate_end f _ i Hf); [done | lia | lia].
    + cbn [iterate]. f_equal.
      apply Forall_bind_ext, Forall_forall. intros [m1 i1] Hin.
      destruct m1 as [|b m1]; [done|].
      apply Hf in Hin. unfold remaining in *. rewrite Hin in H1, H2.
      cbn in H1, H2. rewrite length_app in H1, H2.
      rewrite (IH n2 i1); [done | lia | lia].
Qed.

Lemma doExecute_first (re : Regexp) (fuel : nat) (pos first stop : input)
    (m : list ascii) :
  doExecute re fuel pos = Some (first, m, stop) ->
  (remaining first <= remaining pos)%nat.
Proof.
  revert pos. induction fuel as [|fuel IH]; intros pos; cbn [doExecute];
    destruct (run re pos) as [|[m0 i0] l] eqn:Hrun.
  - done.
  - by intros [= -> -> ->].
  - destruct (step pos) as [[[? ?] next]|] eqn:Hstep; [|done].
    intros Hexec%IH. apply step_remaining in Hstep. lia.
  - by intros [= -> -> ->].
Qed.

(** Past the number of bytes left, the bound on the search for the
    leftmost match makes no difference. *)
Lemma doExecute_fuel (re : Regexp) (n1 n2 : nat) (pos : input) :
  (remaining pos <= n1)%nat -> (remaining pos <= n2)%nat ->
  doExecute re n1 pos = doExecute re n2 pos.
Proof.
  revert n2 pos. induction n1 as [|n1 IH]; intros n2 pos H1 H2.
  - destruct n2 as [|n2]; [done|]. cbn [doExecute].
    destruct (run re pos); [|done]. by rewrite step_end by lia.
  - destruct n2 as [|n2]; cbn [doExecute]; destruct (run re pos); try done.
    + by rewrite step_end by lia.
    + destruct (step pos) as [[[? ?] next]|] eqn:Hstep; [|done].
      apply step_remaining in Hstep. apply IH; lia.
Qed.

(** Past the number of bytes left, the bound on the number of matches
    makes no difference. *)
Lemma allMatches_fuel (re : Regexp) (n1 n2 : nat) (pos : input)
    (prevMatchEnd : option nat) :
  (remaining pos < n1)%nat -> (remaining pos < n2)%nat ->
  allMatches re n1 pos prevMatchEnd = allMatches re n2 pos prevMatchEnd.
Proof.
  revert n2 pos prevMatchEnd.
  induction n1 as [|n1 IH]; intros n2 pos prev H1 H2; [lia|].
  destruct n2 as [|n2]; [lia|]. cbn [allMatches].
  destruct (doExecute re (remaining pos) pos) as [[[first m] stop]|] eqn:Hexec;
    [|done].
  pose proof (doExecute_first _ _ _ _ _ _ Hexec) as Hfirst.
  apply doExecute_Some, run_remaining in Hexec.
  destruct (Nat.eqb_spec (remaining stop) (remaining pos)) as [Heq|Hne].
  - assert (Hrest : match step pos with
                    | Some (_, _, next) =>
                        allMatches re n1 next (Some (remaining stop))
                    | None => []
                    end
                    = match step pos with
                      | Some (_, _, next) =>
                          allMatches re n2 next (Some (remaining stop))
                      | None => []
                      end).
    { destruct (step pos) as [[[? ?] next]|] eqn:Hstep; [|done].
      apply step_remaining in Hstep. apply IH; lia. }
    by rewrite Hrest.
  - f_equal. apply IH; lia.
Qed.

Lemma length_bytes (s : string) : List.length (bytes s) = String.length s.
Proof. induction s as [|b s IH]; cbn; [done | by rewrite IH]. Qed.

(** [FindAllString] returns what the loop of [allMatches] returns however
    long it is allowed to run. *)
Lemma FindAllString_fuel (re : Regexp) (s : string) (more : nat) :
  gostring <$> allMatches re (S (S (String.length s)) + more) (start (bytes s)) None
  = FindAllString re s.
Proof.
  unfold FindAllString. f_equal.
  apply allMatches_fuel; unfold remaining, start; cbn [after];
    rewrite length_bytes; lia.
Qed.

(** The iterations of a starred pattern are bounded by the bytes left,
    and a larger bound would give the same matches. *)
Lemma run_OpStar_fuel (r : Regexp) (i : input) (more : nat) :
  iterate (run r) (remaining i + more) i = run (OpStar r) i.
Proof.
  cbn [run]. apply iterate_fuel; [|lia|lia].
  intros j j' m1. apply run_after.
Qed.

(** The word pattern takes one hyphen at most, gives up a trailing
    apostrophe, and finds no boundary next to an underscore. *)
Example englishWordRegex_boundaries :
  FindAllString englishWordRegex "a-b-c 'x' don't -y z- 3_4"
  = ["a-b"; "c"; "x"; "don't"; "y"; "z"].
Proof. vm_compute. reflexivity. Qed.

(** The phrase pattern runs over blanks up to the last alphanumeric byte
    that ends a word, and needs two bytes. *)
Example englishPhrasesRegex_spans :
  FindAllString englishPhrasesRegex "Hello world, I'll visit micro-video apps. a, b cc  d_ "
  = ["Hello world"; "I'll visit micro-video apps"; "b cc"].
Proof. vm_compute. reflexivity. Qed.

(** Bytes that are not UTF-8 separate tokens and never belong to one. *)
Example invalid_bytes_are_skipped :
  FindAllString chineseWordsRegex
    (gostring (bytes "你" ++ [ascii_of_nat 255] ++ bytes "好世" ++ [ascii_of_nat 228]))
  = ["你"; "好世"].
Proof. vm_compute. reflexivity. Qed.

Lemma is_alnum_ascii (r : rune) : is_alnum r = true -> r < RuneSelf.
Proof. unfold is_alnum, RuneSelf. tests. lia. Qed.

Lemma class_word_ascii (r : rune) : class_word r = true -> r < RuneSelf.
Proof. unfold class_word, is_alnum, RuneSelf. tests. lia. Qed.

Lemma class_phrase_ascii (r : rune) : class_phrase r = true -> r < RuneSelf.
Proof.
  unfold class_phrase, IsWordChar, is_perl_space, RuneSelf. tests. lia.
Qed.

Lemma alnum_not_space (b : ascii) :
  is_alnum (code b) = true -> strings.asciiSpace b = false.
Proof. unfold is_alnum, strings.asciiSpace. tests. lia. Qed.

(** The tokens of the two English patterns are ASCII strings. *)
Lemma englishWord_ascii (line tok : string) :
  tok ∈ FindAllString englishWordRegex line ->
  Forall (fun b => code b < RuneSelf) (bytes tok).
Proof.
  intros (m & first & stop & -> & Hrun)%FindAllString_elem.
  rewrite list_ascii_of_string_of_list_ascii.
  refine (run_within (fun r => r < RuneSelf) _ (fun _ H => H) _ _ _ _ Hrun).
  cbn. unfold RuneSelf at 2. codes.
  repeat split; try lia; apply class_word_ascii.
Qed.

Lemma englishPhrase_ascii (line tok : string) :
  tok ∈ FindAllString englishPhrasesRegex line ->
  Forall (fun b => code b < RuneSelf) (bytes tok).
Proof.
  intros (m & first & stop & -> & Hrun)%FindAllString_elem.
  rewrite list_ascii_of_string_of_list_ascii.
  refine (run_within (fun r => r < RuneSelf) _ (fun _ H => H) _ _ _ _ Hrun).
  cbn. repeat split; first [apply is_alnum_ascii | apply class_phrase_ascii].
Qed.

(** A match of the phrase pattern: an alphanumeric byte, bytes of the
    class of word characters, spaces, apostrophe and hyphen, and an
    alphanumeric byte. *)
Lemma englishPhrase_shape (i i' : input) (m : list ascii) :
  (m, i') ∈ run englishPhrasesRegex i ->
  exists a mid z,
    m = a :: mid ++ [z] /\ is_alnum (code a) = true /\
    is_alnum (code z) = true /\
    Forall (fun b => class_phrase (code b) = true) mid.
Proof.
  unfold englishPhrasesRegex.
  intros (m0 & i0 & ma & [-> ->]%run_OpWordBoundary & Hin & ->)%run_OpConcat.
  apply run_OpConcat in Hin as (m1 & i1 & mb & H1 & Hin & ->).
  apply run_OpConcat in Hin as (m2 & i2 & mc & H2 & Hin & ->).
  apply run_OpConcat in Hin as (m3 & i3 & m4 & H3 & [-> ->]%run_OpWordBoundary & ->).
  apply run_OpCharClass in H1 as (r1 & Hstep1 & Hcls1).
  apply run_OpCharClass in H3 as (r3 & Hstep3 & Hcls3).
  destruct (step_ascii _ _ _ _ Hstep1 (is_alnum_ascii _ Hcls1)) as (a & -> & <-).
  destruct (step_ascii _ _ _ _ Hstep3 (is_alnum_ascii _ Hcls3)) as (z & -> & <-).
  exists a, m2, z. rewrite app_nil_r. cbn. repeat split; try done.
  refine (run_within (fun r => class_phrase r = true) _ class_phrase_ascii
            _ _ _ _ H2).
  by cbn.
Qed.

Lemma length_gostring (m : list ascii) :
  String.length (gostring m) = List.length m.
Proof. induction m as [|b m IH]; cbn; [done | by rewrite IH]. Qed.

Lemma trimLeft_head (b : ascii) (p : list ascii) :
  strings.asciiSpace b = false -> strings.trimLeft (b :: p) = b :: p.
Proof. intros Hb. cbn. by rewrite Hb. Qed.

(** [strings.TrimSpace] keeps a string whose first and last bytes are
    alphanumeric. *)
Lemma TrimSpace_alnum_ends (a z : ascii) (mid : list ascii) :
  is_alnum (code a) = true -> is_alnum (code z) = true ->
  strings.TrimSpace (gostring (a :: mid ++ [z])) = gostring (a :: mid ++ [z]).
Proof.
  intros Ha Hz. unfold strings.TrimSpace.
  rewrite list_ascii_of_string_of_list_ascii.
  rewrite trimLeft_head by by apply alnum_not_space.
  replace (rev (a :: mid ++ [z])) with (z :: rev mid ++ [a])
    by (cbn [rev]; by rewrite rev_app_distr).
  rewrite trimLeft_head by by apply alnum_not_space.
  f_equal. cbn [rev]. by rewrite rev_app_distr, rev_involutive.
Qed.

End Tokenizer.

(** ** The Sink and [main] *)

Section Sink.

Context `{sorter : sort.Sorter}.

Lemma writeToFile_files (fs : string -> sink) (filePath : string)
    (data : list string) (w : world) (p : string) :
  files (writeToFile fs filePath data w) !! p
  = if decide (filePath = p)
    then delivered fs filePath data (files w !! p)
    else files w !! p.
Proof.
  unfold writeToFile, delivered.
  destruct (fs filePath); cbn; case_decide; subst;
    by rewrite ?lookup_insert_eq, ?lookup_insert_ne by done.
Qed.

(** Only a failed [os.Create] prints; a failed write prints nothing. *)
Lemma writeToFile_stdout (fs : string -> sink) (filePath : string)
    (data : list string) (w : world) :
  stdout (writeToFile fs filePath data w)
  = stdout w ++
    match fs filePath with
    | CreateFails err =>
        ["Error creating file " +:+ filePath +:+ ": " +:+ err +:+ LF]
    | _ => []
    end.
Proof.
  unfold writeToFile. destruct (fs filePath); cbn; by rewrite ?app_nil_r.
Qed.

Lemma main_scanned (a : answers) (fs : string -> sink) (w w' : world) :
  scanned a ->
  main a fs w w' <-> report (scan (lines a)) fs (greeted a w) w'.
Proof.
  intros (Hdialog & Hfile & Hopen & Hscanner). unfold main, greeted.
  rewrite Hdialog, Hopen, Hscanner. by case_decide.
Qed.

Lemma report_total (st : state) (fs : string -> sink) (w : world) :
  exists w', report st fs w w'.
Proof.
  destruct (sortByFrequency_total (chineseCharFreq st)) as [cs Hcs].
  destruct (sortByFrequency_total (englishWordFreq st)) as [es Hes].
  eexists. exists cs, es. repeat split; done.
Qed.

(** [main] always comes to an end. *)
Lemma main_total (a : answers) (fs : string -> sink) (w : world) :
  exists w', main a fs w w'.
Proof.
  unfold main. destruct (dialog_err a); [by eexists|].
  case_decide; [by eexists|].
  destruct (open_err a); [by eexists|].
  destruct (scanner_err a); [by eexists|]. apply report_total.
Qed.

(** The files after the four writes, destination by destination. *)
Lemma report_files (st : state) (fs : string -> sink) (w w' : world) :
  report st fs w w' ->
  exists chineseCharDedupSorted englishWordDedupSorted,
    sortByFrequency (chineseCharFreq st) chineseCharDedupSorted /\
    sortByFrequency (englishWordFreq st) englishWordDedupSorted /\
    forall p,
      files w' !! p =
      if decide (p = chineseFileDedup) then
        delivered fs p chineseCharDedupSorted (files w !! p)
      else if decide (p = chineseFileDup) then
        delivered fs p (chineseCharList st) (files w !! p)
      else if decide (p = englishFileDedup) then
        delivered fs p englishWordDedupSorted (files w !! p)
      else if decide (p = englishFileDup) then
        delivered fs p (englishWordList st) (files w !! p)
      else files w !! p.
Proof.
  intros (cs & es & Hcs & Hes & ->). exists cs, es.
  split; [done|]. split; [done|]. intros p. cbn [files Print].
  rewrite !writeToFile_files.
  repeat case_decide; subst; try done.
Qed.

End Sink.

(** ** The Normalizer *)

Section Normalizer.

Local Open Scope Z_scope.

Lemma bytes_append (s1 s2 : string) : bytes (s1 +:+ s2) = bytes s1 ++ bytes s2.
Proof.
  induction s1 as [|b s1 IH]; [done|].
  change (String b s1 +:+ s2) with (String b (s1 +:+ s2)).
  cbn. by rewrite IH.
Qed.

Lemma bytes_inj (s1 s2 : string) : bytes s1 = bytes s2 -> s1 = s2.
Proof.
  intros Heq. by rewrite <- (string_of_list_ascii_of_string s1),
    <- (string_of_list_ascii_of_string s2), Heq.
Qed.

(** The code of a byte after [strings.ToLower]. *)
Lemma code_lower (b : ascii) :
  code (strings.lower b)
  = if between (code "A") (code "Z") (code b) then code b + 32 else code b.
Proof.
  unfold strings.lower. destruct (between _ _ (code b)) eqn:Hupper; [|done].
  assert (Hb : 65 <= code b <= 90) by (revert Hupper; tests; lia).
  unfold code in *. rewrite N_ascii_embedding; lia.
Qed.

Lemma bytes_ToLower (s : string) :
  bytes (strings.ToLower s) = strings.lower <$> bytes s.
Proof. unfold strings.ToLower. apply list_ascii_of_string_of_list_ascii. Qed.

Lemma code_inj (a b : ascii) : code a = code b -> a = b.
Proof.
  unfold code. intros Heq%N2Z.inj.
  by rewrite <- (ascii_N_embedding a), <- (ascii_N_embedding b), Heq.
Qed.

(** [strings.ToLower] gives the lowercase. *)
Lemma lower_lowercase_of (p : list ascii) :
  lowercase_of (strings.lower <$> p) p.
Proof.
  unfold lowercase_of. induction p as [|b p IH]; [constructor|].
  cbn [fmap list_fmap]. constructor; [|exact IH].
  pose proof (code_lower b) as Hcode. unfold strings.lower in *.
  destruct (between (code "A") (code "Z") (code b)) eqn:Hupper.
  - left. split; [|done]. revert Hupper. unfold between.
    rewrite andb_true_iff, !Z.leb_le. lia.
  - right. split; [|done]. revert Hupper. unfold between.
    rewrite andb_false_iff, !Z.leb_gt. lia.
Qed.

(** The lowercase of a string is one string. *)
Lemma lowercase_of_unique (key key' raw : list ascii) :
  lowercase_of key raw -> lowercase_of key' raw -> key = key'.
Proof.
  unfold lowercase_of. intros Hkey. revert key'.
  induction Hkey as [|k r key raw Hk Hkey IH]; intros key' Hkey';
    inversion Hkey' as [|k' r' key'' raw' Hk' Hkey'']; subst; [done|].
  f_equal; [|by apply IH].
  destruct Hk as [[Hup Hk]|[Hlow ->]], Hk' as [[Hup' Hk']|[Hlow' ->]];
    try done. apply code_inj. lia.
Qed.

Lemma asciiSpace_white (b : ascii) : strings.asciiSpace b = true <-> white b.
Proof.
  unfold strings.asciiSpace, white. rewrite !elem_of_cons, elem_of_nil.
  tests. lia.
Qed.

Lemma asciiSpace_not_white (b : ascii) :
  strings.asciiSpace b = false <-> ~ white b.
Proof.
  rewrite <- asciiSpace_white. by destruct (strings.asciiSpace b).
Qed.

(** What [trimLeft] drops is white space, and what it leaves does not
    start with white space. *)
Lemma trimLeft_split (p : list ascii) :
  exists pre,
    p = pre ++ strings.trimLeft p /\ Forall white pre /\
    forall b, head (strings.trimLeft p) = Some b -> ~ white b.
Proof.
  induction p as [|a p (pre & Hp & Hpre & Hhead)]; [by exists []|].
  cbn [strings.trimLeft]. destruct (strings.asciiSpace a) eqn:Ha.
  - exists (a :: pre). split; [cbn; by f_equal|]. split; [|done].
    constructor; [by apply asciiSpace_white | done].
  - exists []. split; [done|]. split; [done|].
    intros b [= <-]. by apply asciiSpace_not_white.
Qed.

Lemma trimLeft_white (pre rest : list ascii) :
  Forall white pre -> (forall b, head rest = Some b -> ~ white b) ->
  strings.trimLeft (pre ++ rest) = rest.
Proof.
  intros Hpre Hrest. induction Hpre as [|a pre Ha Hpre IH]; cbn [app].
  - destruct rest as [|b rest]; [done|]. cbn [strings.trimLeft].
    by rewrite (proj2 (asciiSpace_not_white b) (Hrest b eq_refl)).
  - cbn [strings.trimLeft]. by rewrite (proj2 (asciiSpace_white a) Ha).
Qed.

Lemma head_rev (p : list ascii) : head (rev p) = last p.
Proof.
  induction p as [|a p IH] using rev_ind; [done|].
  by rewrite rev_app_distr, last_snoc.
Qed.

Lemma last_rev (p : list ascii) : last (rev p) = head p.
Proof. by rewrite <- head_rev, rev_involutive. Qed.

Lemma head_app_nonempty (p q : list ascii) :
  p <> [] -> head (p ++ q) = head p.
Proof. by destruct p. Qed.

(** The trimmed text of a string is what [strings.TrimSpace] computes:
    there is one trimmed text, and this is it. *)
Lemma trimmed_of_TrimSpace (core raw : list ascii) :
  trimmed_of core raw <->
  core = rev (strings.trimLeft (rev (strings.trimLeft raw))).
Proof.
  split.
  - intros (pre & post & -> & Hpre & Hpost & Hhead & Hlast).
    destruct core as [|a core'] eqn:Hcore.
    + cbn [app]. rewrite <- (app_nil_r (pre ++ post)).
      rewrite trimLeft_white; [done | | done].
      apply Forall_app. by split.
    + rewrite <- Hcore in *. assert (Hne : core <> []) by by rewrite Hcore.
      rewrite trimLeft_white; [|done|].
      * rewrite rev_app_distr, trimLeft_white, rev_involutive; [done| |].
        -- by apply Forall_rev.
        -- intros b. rewrite head_rev. apply Hlast.
      * intros b. rewrite head_app_nonempty by done. apply Hhead.
  - intros ->.
    destruct (trimLeft_split raw) as (pre & Hraw & Hpre & Hhead).
    destruct (trimLeft_split (rev (strings.trimLeft raw)))
      as (tsop & Hrev & Htsop & Hlast).
    set (left := strings.trimLeft raw) in *.
    set (core := strings.trimLeft (rev left)) in *.
    assert (Hleft : left = rev core ++ rev tsop).
    { by rewrite <- rev_app_distr, <- Hrev, rev_involutive. }
    exists pre, (rev tsop). split; [by rewrite <- Hleft|].
    split; [done|]. split; [by apply Forall_rev|]. split.
    + intros b Hb. apply Hhead. rewrite Hleft.
      rewrite head_app_nonempty; [done|]. by destruct (rev core).
    + intros b. rewrite last_rev. apply Hlast.
Qed.

Lemma bytes_TrimSpace (s : string) :
  bytes (strings.TrimSpace s)
  = rev (strings.trimLeft (rev (strings.trimLeft (bytes s)))).
Proof. unfold strings.TrimSpace. apply list_ascii_of_string_of_list_ascii. Qed.

(** The keys [main] computes are the NormalizedKeys. *)
Lemma normalize_NormalizedKey (c : category) (raw : string) :
  NormalizedKey c raw (normalize c raw).
Proof.
  destruct c; cbn [NormalizedKey normalize]; try done.
  - rewrite bytes_ToLower. apply lower_lowercase_of.
  - exists (bytes (strings.TrimSpace raw)). split.
    + apply trimmed_of_TrimSpace, bytes_TrimSpace.
    + rewrite bytes_ToLower. apply lower_lowercase_of.
Qed.

(** A raw text has one NormalizedKey in a category. *)
Lemma NormalizedKey_unique (c : category) (raw key key' : string) :
  NormalizedKey c raw key -> NormalizedKey c raw key' -> key = key'.
Proof.
  destruct c; cbn [NormalizedKey].
  - by intros -> ->.
  - by intros -> ->.
  - intros Hkey Hkey'. apply bytes_inj. by eapply lowercase_of_unique.
  - intros (core & Hcore%trimmed_of_TrimSpace & Hkey)
      (core' & Hcore'%trimmed_of_TrimSpace & Hkey').
    subst core core'. apply bytes_inj. by eapply lowercase_of_unique.
Qed.

End Normalizer.

(** * The claims *)

Local Open Scope Z_scope.

(** C1: for every frequency table, [sortByFrequency] returns, and what it
    returns holds exactly the keys of the table, none of them twice, in an
    order in which the count never increases from a key to the next; on
    the empty table it returns the empty list. *)
Theorem rank_distinct_keys_descending `{sorter : sort.Sorter}
    (freqMap : gmap string Z) :
  (exists sortedKeys, sortByFrequency freqMap sortedKeys) /\
  forall sortedKeys, sortByFrequency freqMap sortedKeys ->
    NoDup sortedKeys /\
    (forall key, key ∈ sortedKeys <-> is_Some (freqMap !! key)) /\
    (forall i k1 k2,
        sortedKeys !! i = Some k1 -> sortedKeys !! S i = Some k2 ->
        index freqMap k2 <= index freqMap k1) /\
    (freqMap = ∅ -> sortedKeys = []).
Proof.
  split; [apply sortByFrequency_total|].
  intros sortedKeys (entries & Hrange & ->).
  pose proof (sortedKeys_permutation freqMap entries Hrange) as Hperm.
  repeat split.
  - rewrite Hperm. apply NoDup_fst_map_to_list.
  - by apply sortedKeys_elem.
  - by apply sortedKeys_elem.
  - intros i k1 k2 H1 H2.
    apply (Sorted_adjacent (fun a b => b <= a)
             (index freqMap <$> sortByFrequency_from entries) i).
    + by apply sortedKeys_counts_sorted.
    + by rewrite list_lookup_fmap, H1.
    + by rewrite list_lookup_fmap, H2.
  - intros ->. rewrite map_to_list_empty in Hperm.
    by apply Permutation_nil_r in Hperm.
Qed.

Lemma rank_distinct_keys_descending_witness :
  sortByFrequency (sorter := insertion) cat_dog ["cat"; "dog"] /\
  NoDup ["cat"; "dog"] /\
  (forall key, key ∈ ["cat"; "dog"] <-> is_Some (cat_dog !! key)) /\
  (forall i k1 k2,
      ["cat"; "dog"] !! i = Some k1 -> ["cat"; "dog"] !! S i = Some k2 ->
      index cat_dog k2 <= index cat_dog k1) /\
  (cat_dog = ∅ -> ["cat"; "dog"] = []).
Proof.
  assert (Hrank : sortByFrequency (sorter := insertion) cat_dog ["cat"; "dog"]).
  { exists [("dog", 1); ("cat", 2)]. split; [|reflexivity].
    unfold range. vm_compute. apply perm_swap. }
  split; [exact Hrank|].
  exact (proj2 (rank_distinct_keys_descending (sorter := insertion) cat_dog)
           _ Hrank).
Defined.

(** C2: for every input and every category, when the scan is over the sum
    of the counts of the category's map is the length of the category's
    list, which holds one entry per matched token.  The counts are Go
    [int]s, so the statement is for lists whose length is one, as the
    length of every slice is. *)
Theorem counts_sum_to_list_length (lines : list string) (c : category) :
  Z.of_nat (List.length (DuplicatedList c (scan lines))) <= maxInt ->
  DuplicatedList c (scan lines) = tokens c lines /\
  total (FrequencyTable c (scan lines))
  = Z.of_nat (List.length (DuplicatedList c (scan lines))).
Proof.
  pose proof (scan_aggregate c lines) as Hscan.
  pose proof (aggregate_list c (tokens c lines) ∅ []) as Hlist.
  rewrite <- Hscan in Hlist. cbn in Hlist. intros Hlen.
  split; [done|].
  destruct (aggregate_total c (tokens c lines) ∅ []) as [_ Htotal].
  - intros key count Hkey. by rewrite lookup_empty in Hkey.
  - by rewrite total_empty.
  - by rewrite <- Hlist.
  - by rewrite <- Hscan in Htotal.
Qed.

Lemma counts_sum_to_list_length_witness :
  Z.of_nat (List.length (DuplicatedList english_word (scan ["cat cat dog"])))
  <= maxInt /\
  DuplicatedList english_word (scan ["cat cat dog"]) = ["cat"; "cat"; "dog"] /\
  total (FrequencyTable english_word (scan ["cat cat dog"])) = 3.
Proof.
  assert (Hlen : Z.of_nat (List.length
                   (DuplicatedList english_word (scan ["cat cat dog"])))
                 <= maxInt) by (vm_compute; discriminate).
  split; [exact Hlen|].
  destruct (counts_sum_to_list_length ["cat cat dog"] english_word Hlen)
    as [Hlist Htotal].
  split; [rewrite Hlist; vm_compute; reflexivity|].
  rewrite Htotal. vm_compute. reflexivity.
Defined.

(** C3: on the line of the scenario the tokenizer gives the four Chinese
    characters, the one Chinese word and the six English words, and the
    English words are counted under their lowercase. *)
Theorem scenario_tokens :
  let line := "Hello world, I'll visit micro-video apps. 你好世界" in
  FindAllString chineseCharacterRegex line = ["你"; "好"; "世"; "界"] /\
  FindAllString chineseWordsRegex line = ["你好世界"] /\
  FindAllString englishWordRegex line
  = ["Hello"; "world"; "I'll"; "visit"; "micro-video"; "apps"] /\
  strings.ToLower <$> FindAllString englishWordRegex line
  = ["hello"; "world"; "i'll"; "visit"; "micro-video"; "apps"] /\
  chineseCharList (scan [line]) = ["你"; "好"; "世"; "界"] /\
  chineseWordsList (scan [line]) = ["你好世界"] /\
  englishWordList (scan [line])
  = ["Hello"; "world"; "I'll"; "visit"; "micro-video"; "apps"] /\
  englishWordFreq (scan [line])
  = list_to_map [("hello", 1); ("world", 1); ("i'll", 1); ("visit", 1);
                 ("micro-video", 1); ("apps", 1)].
Proof. repeat split; vm_compute; reflexivity. Qed.

(** C4, as the code has it: two calls of [sortByFrequency] on the same
    table return the same keys with the same sequence of counts, so the
    two orders differ at most in how keys of equal count are arranged, and
    they are the same order when no two keys have the same count. *)
Theorem rank_deterministic_up_to_ties `{sorter : sort.Sorter}
    (freqMap : gmap string Z) (keys1 keys2 : list string) :
  sortByFrequency freqMap keys1 -> sortByFrequency freqMap keys2 ->
  keys1 ≡ₚ keys2 /\
  index freqMap <$> keys1 = index freqMap <$> keys2 /\
  ((forall k1 k2 count,
       freqMap !! k1 = Some count -> freqMap !! k2 = Some count -> k1 = k2) ->
   keys1 = keys2).
Proof.
  intros (entries1 & Hrange1 & ->) (entries2 & Hrange2 & ->).
  assert (Hcounts : index freqMap <$> sortByFrequency_from entries1
                    = index freqMap <$> sortByFrequency_from entries2).
  { apply (@Sorted_unique Z (fun a b => b <= a)).
    - intros a b c Hab Hbc. lia.
    - intros a b Hab Hba. lia.
    - by apply sortedKeys_counts_sorted.
    - by apply sortedKeys_counts_sorted.
    - by rewrite !sortedKeys_counts_permutation. }
  split; [by rewrite !(sortedKeys_permutation freqMap)|].
  split; [done|]. intros Hdistinct.
  apply (fmap_eq_inj_on (index freqMap)); [|done].
  intros k1 k2 [v1 Hk1]%(sortedKeys_elem freqMap entries1)
    [v2 Hk2]%(sortedKeys_elem freqMap entries2); try done.
  unfold index. rewrite Hk1, Hk2. cbn. intros ->. by eapply Hdistinct.
Qed.

Lemma rank_deterministic_up_to_ties_witness :
  sortByFrequency (sorter := insertion) tie ["a"; "b"] /\
  sortByFrequency (sorter := insertion) tie ["b"; "a"] /\
  ["a"; "b"] ≡ₚ ["b"; "a"] /\
  index tie <$> ["a"; "b"] = index tie <$> ["b"; "a"].
Proof.
  assert (H1 : sortByFrequency (sorter := insertion) tie ["a"; "b"]).
  { exists [("a", 1); ("b", 1)]. split; [|reflexivity].
    unfold range. vm_compute. reflexivity. }
  assert (H2 : sortByFrequency (sorter := insertion) tie ["b"; "a"]).
  { exists [("b", 1); ("a", 1)]. split; [|reflexivity].
    unfold range. vm_compute. apply perm_swap. }
  split; [exact H1|]. split; [exact H2|].
  destruct (rank_deterministic_up_to_ties (sorter := insertion) tie _ _ H1 H2)
    as (Hperm & Hcounts & _).
  split; [exact Hperm | exact Hcounts].
Defined.

(** C4, as the claim has it, fails: on a table with a tie, a call can
    return either order of the two keys, depending on the order in which
    [range] hands out the entries. *)
Lemma rank_order_of_ties_not_fixed :
  ~ (forall keys1 keys2 : list string,
        sortByFrequency (sorter := insertion) tie keys1 ->
        sortByFrequency (sorter := insertion) tie keys2 ->
        keys1 = keys2).
Proof.
  intros Hsame.
  assert (H1 : sortByFrequency (sorter := insertion) tie ["a"; "b"]).
  { exists [("a", 1); ("b", 1)]. split; [|reflexivity].
    unfold range. vm_compute. reflexivity. }
  assert (H2 : sortByFrequency (sorter := insertion) tie ["b"; "a"]).
  { exists [("b", 1); ("a", 1)]. split; [|reflexivity].
    unfold range. vm_compute. apply perm_swap. }
  discriminate (Hsame _ _ H1 H2).
Qed.

(** C5: the key of a token is a function of its raw text and its category
    alone, the NormalizedKey of the specification: the raw text itself in
    the Chinese categories, its lowercase, byte for byte and with nothing
    trimmed, for English words, and the lowercase of the text without its
    leading and trailing white space for English phrases.  The keys [main]
    computes are these keys, on every ASCII text and so on every English
    token; line by line, and over the whole input, the map and the list of
    a category are what the Aggregator builds from the tokens with these
    keys. *)
Theorem keys_are_normalized_tokens (c : category) :
  (forall raw, normalize c raw =
     match c with
     | chinese_character | chinese_word => raw
     | english_word => strings.ToLower raw
     | english_phrase => strings.ToLower (strings.TrimSpace raw)
     end) /\
  (forall raw, (english c -> ascii_only raw) ->
               NormalizedKey c raw (normalize c raw)) /\
  (forall raw key key',
      NormalizedKey c raw key -> NormalizedKey c raw key' -> key = key') /\
  (forall line raw,
      raw ∈ FindAllString (pattern c) line -> english c -> ascii_only raw) /\
  (forall st line,
      (FrequencyTable c (scan_line st line), DuplicatedList c (scan_line st line))
      = aggregate c (FindAllString (pattern c) line)
          (FrequencyTable c st, DuplicatedList c st)) /\
  (forall lines,
      (FrequencyTable c (scan lines), DuplicatedList c (scan lines))
      = aggregate c (tokens c lines) (∅, [])).
Proof.
  split; [by destruct c|].
  split; [intros raw _; apply normalize_NormalizedKey|].
  split; [apply NormalizedKey_unique|].
  split; [|split; [apply scan_line_aggregate | apply scan_aggregate]].
  intros line raw Hraw [-> | ->]; cbn [pattern] in Hraw.
  - by eapply englishWord_ascii.
  - by eapply englishPhrase_ascii.
Qed.

Lemma keys_are_normalized_tokens_witness :
  ascii_only "  Hello World " /\
  normalize english_phrase "  Hello World " = "hello world" /\
  NormalizedKey english_phrase "  Hello World " "hello world" /\
  ascii_only " Ab " /\
  normalize english_word " Ab " = " ab " /\
  NormalizedKey english_word " Ab " " ab ".
Proof.
  assert (Hphrase : ascii_only "  Hello World ")
    by (unfold ascii_only; cbn [list_ascii_of_string];
        repeat constructor; vm_compute; reflexivity).
  assert (Hword : ascii_only " Ab ")
    by (unfold ascii_only; cbn [list_ascii_of_string];
        repeat constructor; vm_compute; reflexivity).
  assert (Hkey1 : normalize english_phrase "  Hello World " = "hello world")
    by (vm_compute; reflexivity).
  assert (Hkey2 : normalize english_word " Ab " = " ab ")
    by (vm_compute; reflexivity).
  split; [exact Hphrase|]. split; [exact Hkey1|]. split.
  { rewrite <- Hkey1.
    exact (proj1 (proj2 (keys_are_normalized_tokens english_phrase))
             "  Hello World " (fun _ => Hphrase)). }
  split; [exact Hword|]. split; [exact Hkey2|].
  rewrite <- Hkey2.
  exact (proj1 (proj2 (keys_are_normalized_tokens english_word))
           " Ab " (fun _ => Hword)).
Defined.

(** Lowercasing keeps the surrounding blanks, the phrase key loses them. *)
Example normalize_trims_phrases_only :
  normalize english_word " Ab " = " ab " /\ normalize english_phrase " Ab " = "ab".
Proof. split; reflexivity. Qed.

(** C6: when the scanner stops on an error, [main] reports it and returns
    before any write: every file is as it was. *)
Theorem read_error_writes_nothing `{sorter : sort.Sorter} (a : answers)
    (fs : string -> sink) (w w' : world) (err : string) :
  dialog_err a = None -> inputFile a <> EmptyString -> open_err a = None ->
  scanner_err a = Some err ->
  main a fs w w' ->
  files w' = files w /\
  stdout w' = stdout w ++
    [ "Select the input file:" +:+ LF;
      "Selected input file: " +:+ inputFile a +:+ LF;
      "Error reading input file: " +:+ err +:+ LF ].
Proof.
  intros Hdialog Hfile Hopen Hscanner. unfold main.
  rewrite Hdialog, Hopen, Hscanner. case_decide; [done|].
  intros ->. cbn. by rewrite <- !app_assoc.
Qed.

Lemma read_error_writes_nothing_witness :
  exists w',
    main (sorter := insertion) torn (fun _ => Writable) blank w' /\
    files w' = files blank /\
    stdout w' = stdout blank ++
      [ "Select the input file:" +:+ LF;
        "Selected input file: " +:+ inputFile torn +:+ LF;
        "Error reading input file: " +:+ "unexpected EOF" +:+ LF ].
Proof.
  destruct (main_total (sorter := insertion) torn (fun _ => Writable) blank)
    as [w' Hmain].
  exists w'. split; [exact Hmain|].
  apply (read_error_writes_nothing (sorter := insertion) torn
           (fun _ => Writable) blank w' "unexpected EOF");
    [reflexivity | discriminate | reflexivity | reflexivity | exact Hmain].
Defined.



(** C8 fails on a write error: with the device of [duplicated_english.txt]
    full, the file is created and stays empty although three records were
    due, and all [main] prints is its greeting and the line that says
    every file was written. *)
Theorem write_failure_goes_unreported `{sorter : sort.Sorter} (w' : world) :
  main cat_cat_dog disk_full blank w' ->
  records (englishWordList (scan (lines cat_cat_dog)))
  = "cat" +:+ LF +:+ "cat" +:+ LF +:+ "dog" +:+ LF /\
  files w' !! englishFileDup = Some EmptyString /\
  stdout w' =
    [ "Select the input file:" +:+ LF;
      "Selected input file: input.txt" +:+ LF;
      "All output files written successfully." +:+ LF ].
Proof.
  intros Hmain. split; [vm_compute; reflexivity|].
  assert (Hscanned : scanned cat_cat_dog) by (repeat split; discriminate).
  apply (main_scanned cat_cat_dog disk_full blank w' Hscanned) in Hmain.
  split.
  - apply report_files in Hmain as (cs & es & _ & _ & Hfiles).
    rewrite Hfiles. reflexivity.
  - destruct Hmain as (cs & es & _ & _ & ->).
    cbn [stdout Print]. rewrite !writeToFile_stdout. reflexivity.
Qed.

Lemma write_failure_goes_unreported_witness :
  exists w',
    main (sorter := insertion) cat_cat_dog disk_full blank w' /\
    files w' !! englishFileDup = Some EmptyString /\
    stdout w' =
      [ "Select the input file:" +:+ LF;
        "Selected input file: input.txt" +:+ LF;
        "All output files written successfully." +:+ LF ].
Proof.
  destruct (main_total (sorter := insertion) cat_cat_dog disk_full blank)
    as [w' Hmain].
  exists w'. split; [exact Hmain|].
  exact (proj2 (write_failure_goes_unreported (sorter := insertion) w' Hmain)).
Defined.



(** C10: a token of the phrase pattern starts and ends with an
    alphanumeric byte and has at least two bytes, so [strings.TrimSpace]
    leaves it as it is and its key is its lowercase. *)
Theorem phrase_tokens_need_no_trim (line phrase : string) :
  phrase ∈ FindAllString englishPhrasesRegex line ->
  (exists a mid z,
      bytes phrase = a :: mid ++ [z] /\
      is_alnum (code a) = true /\ is_alnum (code z) = true) /\
  (2 <= String.length phrase)%nat /\
  strings.TrimSpace phrase = phrase /\
  strings.ToLower (strings.TrimSpace phrase) = strings.ToLower phrase.
Proof.
  intros (m & first & stop & -> & Hrun)%FindAllString_elem.
  apply englishPhrase_shape in Hrun as (a & mid & z & -> & Ha & Hz & _).
  pose proof (TrimSpace_alnum_ends a z mid Ha Hz) as Htrim.
  split; [|split; [|split]].
  - exists a, mid, z. by rewrite list_ascii_of_string_of_list_ascii.
  - rewrite length_gostring. cbn. rewrite length_app. cbn. lia.
  - done.
  - by rewrite Htrim.
Qed.

Lemma phrase_tokens_need_no_trim_witness :
  "Hello world" ∈ FindAllString englishPhrasesRegex "Hello world, I'll go" /\
  strings.TrimSpace "Hello world" = "Hello world" /\
  (2 <= String.length "Hello world")%nat.
Proof.
  assert (Hin : "Hello world"
                ∈ FindAllString englishPhrasesRegex "Hello world, I'll go")
    by (vm_compute; apply list_elem_of_here).
  destruct (phrase_tokens_need_no_trim _ _ Hin) as (_ & Hlen & Htrim & _).
  split; [exact Hin|]. split; [exact Htrim | exact Hlen].
Defined.

(** * Further properties of the program *)

(** ** What the tables count *)

Section Counting.

Local Open Scope Z_scope.

Lemma index_increment (table : gmap string Z) (key key' : string) :
  index (increment table key) key'
  = if decide (key = key') then int (index table key + 1) else index table key'.
Proof.
  unfold increment, index at 1. case_decide as Hkey.
  - subst. by rewrite lookup_insert_eq.
  - by rewrite lookup_insert_ne.
Qed.

Lemma occurrences_cons (key k : string) (keys : list string) :
  occurrences key (k :: keys)
  = ((if decide (k = key) then 1 else 0) + occurrences key keys)%nat.
Proof.
  unfold occurrences. rewrite filter_cons. by case_decide.
Qed.

Lemma occurrences_app (key : string) (keys1 keys2 : list string) :
  occurrences key (keys1 ++ keys2)
  = (occurrences key keys1 + occurrences key keys2)%nat.
Proof. unfold occurrences. by rewrite filter_app, length_app. Qed.

Lemma occurrences_pos (key : string) (keys : list string) :
  (0 < occurrences key keys)%nat <-> key ∈ keys.
Proof.
  induction keys as [|k keys IH]; [cbn; split; [lia | by intros ?%elem_of_nil]|].
  rewrite occurrences_cons, elem_of_cons. case_decide; [|].
  - split; [auto | lia].
  - rewrite <- IH. split; [intros; right; lia | intros [->|?]; [done | lia]].
Qed.

(** As long as the list stays within [int], every token adds one to the
    count of its key and leaves the other counts alone. *)
Lemma aggregate_index (c : category) (toks : list string) table lst key :
  counts_nonneg table ->
  total table = Z.of_nat (List.length lst) ->
  Z.of_nat (List.length lst + List.length toks) <= maxInt ->
  index (aggregate c toks (table, lst)).1 key
  = index table key + Z.of_nat (occurrences key (normalize c <$> toks)).
Proof.
  revert table lst.
  induction toks as [|tok toks IH]; intros table lst Hall Hsum Hlen.
  - cbn. lia.
  - cbn [aggregate fold_left]. cbn [List.length] in Hlen.
    pose proof (index_le_total table (normalize c tok) Hall) as Hidx.
    assert (Hint : int (index table (normalize c tok) + 1)
                   = index table (normalize c tok) + 1).
    { apply int_small. unfold maxInt in *. lia. }
    unfold aggregate in IH. rewrite IH.
    + rewrite index_increment, fmap_cons, occurrences_cons, Hint.
      case_decide; subst; lia.
    + unfold increment. rewrite Hint.
      apply map_Forall_insert_2; [lia | done].
    + unfold increment. rewrite Hint, total_insert, length_app. cbn. lia.
    + rewrite length_app. cbn. lia.
Qed.

(** A key is in the table as soon as one token has it, and only then. *)
Lemma aggregate_keys (c : category) (toks : list string) table lst key :
  is_Some ((aggregate c toks (table, lst)).1 !! key)
  <-> is_Some (table !! key) \/ key ∈ normalize c <$> toks.
Proof.
  revert table lst. induction toks as [|tok toks IH]; intros table lst.
  - cbn. split; [auto | intros [?|?%elem_of_nil]; done].
  - cbn [aggregate fold_left]. unfold aggregate in IH. rewrite IH.
    rewrite fmap_cons, elem_of_cons. unfold increment.
    destruct (decide (key = normalize c tok)) as [->|Hne].
    + rewrite lookup_insert_eq. split; [auto | intros _; left; by eexists].
    + rewrite lookup_insert_ne by done. tauto.
Qed.

Lemma scan_list (c : category) (lines : list string) :
  DuplicatedList c (scan lines) = tokens c lines.
Proof.
  pose proof (aggregate_list c (tokens c lines) ∅ []) as Hlist.
  by rewrite <- scan_aggregate in Hlist.
Qed.

Lemma scan_index (c : category) (lines : list string) (key : string) :
  Z.of_nat (List.length (tokens c lines)) <= maxInt ->
  index (FrequencyTable c (scan lines)) key
  = Z.of_nat (occurrences key (keys_of c lines)).
Proof.
  intros Hlen.
  pose proof (aggregate_index c (tokens c lines) ∅ [] key) as Hidx.
  rewrite <- scan_aggregate in Hidx. cbn [fst] in Hidx. rewrite Hidx.
  - unfold index at 1. by rewrite lookup_empty.
  - intros k v Hk. by rewrite lookup_empty in Hk.
  - by rewrite total_empty.
  - done.
Qed.

Lemma scan_keys (c : category) (lines : list string) (key : string) :
  is_Some (FrequencyTable c (scan lines) !! key) <-> key ∈ keys_of c lines.
Proof.
  pose proof (aggregate_keys c (tokens c lines) ∅ [] key) as Hkeys.
  rewrite <- scan_aggregate in Hkeys. cbn [fst] in Hkeys. rewrite Hkeys.
  rewrite lookup_empty. split; [intros [[? [=]]|?]; done | auto].
Qed.

Lemma tokens_app (c : category) (lines1 lines2 : list string) :
  tokens c (lines1 ++ lines2) = tokens c lines1 ++ tokens c lines2.
Proof.
  induction lines1 as [|line lines1 IH]; [done|].
  cbn [app]. by rewrite !tokens_cons, IH, app_assoc.
Qed.

End Counting.

(** X1: when the scan is over, the count of a key in the table of a
    category is the number of tokens of the category that have this key,
    provided the number of tokens fits in an [int]. *)
Theorem table_counts_occurrences (c : category) (lines : list string)
    (key : string) :
  (Z.of_nat (List.length (tokens c lines)) <= maxInt)%Z ->
  index (FrequencyTable c (scan lines)) key
  = Z.of_nat (occurrences key (keys_of c lines)).
Proof. apply scan_index. Qed.

Lemma table_counts_occurrences_witness :
  (Z.of_nat (List.length (tokens english_word ["Cat cat dog"; "CAT"]))
   <= maxInt)%Z /\
  index (FrequencyTable english_word (scan ["Cat cat dog"; "CAT"])) "cat" = 3%Z.
Proof.
  assert (Hlen : (Z.of_nat (List.length
                    (tokens english_word ["Cat cat dog"; "CAT"])) <= maxInt)%Z)
    by (vm_compute; discriminate).
  split; [exact Hlen|].
  rewrite (table_counts_occurrences english_word ["Cat cat dog"; "CAT"] "cat" Hlen).
  vm_compute. reflexivity.
Defined.

(** X2: a key is in the table of a category exactly when some token of
    the category has it; no other key is ever inserted and none is ever
    removed. *)
Theorem table_keys_are_token_keys (c : category) (lines : list string)
    (key : string) :
  is_Some (FrequencyTable c (scan lines) !! key)
  <-> exists tok, tok ∈ DuplicatedList c (scan lines) /\ normalize c tok = key.
Proof.
  rewrite scan_keys, scan_list. unfold keys_of. rewrite list_elem_of_fmap.
  split; intros (tok & H1 & H2); exists tok; by split.
Qed.

(** X3: the scan of an input in two parts: the list of a category is the
    list of the first part followed by the list of the second, and every
    count is the sum of the counts of the parts, provided the number of
    tokens fits in an [int]. *)
Theorem scan_of_appended_input (c : category) (lines1 lines2 : list string)
    (key : string) :
  (Z.of_nat (List.length (tokens c (lines1 ++ lines2))) <= maxInt)%Z ->
  DuplicatedList c (scan (lines1 ++ lines2))
  = DuplicatedList c (scan lines1) ++ DuplicatedList c (scan lines2) /\
  index (FrequencyTable c (scan (lines1 ++ lines2))) key
  = (index (FrequencyTable c (scan lines1)) key
     + index (FrequencyTable c (scan lines2)) key)%Z.
Proof.
  intros Hlen. rewrite !scan_list, tokens_app. split; [done|].
  rewrite tokens_app, length_app in Hlen.
  rewrite !scan_index; [| lia | lia | rewrite tokens_app, length_app; lia].
  unfold keys_of. rewrite tokens_app, fmap_app, occurrences_app. lia.
Qed.

Lemma scan_of_appended_input_witness :
  (Z.of_nat (List.length (tokens english_word (["cat dog"] ++ ["Cat"])))
   <= maxInt)%Z /\
  DuplicatedList english_word (scan (["cat dog"] ++ ["Cat"]))
  = DuplicatedList english_word (scan ["cat dog"])
    ++ DuplicatedList english_word (scan ["Cat"]) /\
  index (FrequencyTable english_word (scan (["cat dog"] ++ ["Cat"]))) "cat"
  = (index (FrequencyTable english_word (scan ["cat dog"])) "cat"
     + index (FrequencyTable english_word (scan ["Cat"])) "cat")%Z.
Proof.
  assert (Hlen : (Z.of_nat (List.length
                    (tokens english_word (["cat dog"] ++ ["Cat"]))) <= maxInt)%Z)
    by (vm_compute; discriminate).
  split; [exact Hlen|].
  exact (scan_of_appended_input english_word ["cat dog"] ["Cat"] "cat" Hlen).
Defined.

(** ** What the ranking promises *)

Section Ranking.

Context `{sorter : sort.Sorter}.

Local Open Scope Z_scope.

Lemma StronglySorted_pairs {B : Type} (R : B -> B -> Prop) (l : list B)
    (i j : nat) (a b : B) :
  StronglySorted R l -> (i < j)%nat ->
  l !! i = Some a -> l !! j = Some b -> R a b.
Proof.
  intros Hsorted. revert i j.
  induction Hsorted as [|x l Hl IH Hall]; intros i j Hij Ha Hb; [done|].
  destruct j as [|j]; [lia|]. cbn in Hb. destruct i as [|i]; cbn in Ha.
  - injection Ha as ->. rewrite Forall_forall in Hall.
    apply Hall. by eapply list_elem_of_lookup_2.
  - apply (IH i j); [lia | done | done].
Qed.

Lemma sortedKeys_length (freqMap : gmap string Z) entries :
  range freqMap entries ->
  List.length (sortByFrequency_from entries) = size freqMap.
Proof.
  intros Hrange.
  by rewrite (sortedKeys_permutation freqMap entries Hrange), length_fmap,
    length_map_to_list.
Qed.

(** A key never comes before a key with a larger count. *)
Lemma sortedKeys_pairs (freqMap : gmap string Z) entries (i j : nat)
    (ki kj : string) :
  range freqMap entries -> (i < j)%nat ->
  sortByFrequency_from entries !! i = Some ki ->
  sortByFrequency_from entries !! j = Some kj ->
  index freqMap kj <= index freqMap ki.
Proof.
  intros Hrange Hij Hi Hj.
  apply (StronglySorted_pairs (fun a b => b <= a)
           (index freqMap <$> sortByFrequency_from entries) i j); [|done| |].
  - apply Sorted_StronglySorted; [intros a b c; lia|].
    by apply sortedKeys_counts_sorted.
  - by rewrite list_lookup_fmap, Hi.
  - by rewrite list_lookup_fmap, Hj.
Qed.

End Ranking.

(** X4: whatever [sortByFrequency] returns has as many keys as the table
    has entries, no key in it comes before a key with a larger count, and
    its first key has the largest count of the table. *)
Theorem rank_puts_larger_counts_first `{sorter : sort.Sorter}
    (freqMap : gmap string Z) (sortedKeys : list string) :
  sortByFrequency freqMap sortedKeys ->
  List.length sortedKeys = size freqMap /\
  (forall i j ki kj,
      (i < j)%nat -> sortedKeys !! i = Some ki -> sortedKeys !! j = Some kj ->
      (index freqMap kj <= index freqMap ki)%Z) /\
  (forall top key count,
      head sortedKeys = Some top -> freqMap !! key = Some count ->
      (count <= index freqMap top)%Z).
Proof.
  intros (entries & Hrange & ->).
  split; [by apply sortedKeys_length|].
  split; [intros i j ki kj; by apply sortedKeys_pairs|].
  intros top key count Htop Hkey.
  assert (Hin : key ∈ sortByFrequency_from entries)
    by (apply (sortedKeys_elem freqMap); [done | by eexists]).
  apply list_elem_of_lookup in Hin as [j Hj].
  rewrite head_lookup in Htop.
  replace count with (index freqMap key) by (unfold index; by rewrite Hkey).
  destruct j as [|j].
  - rewrite Hj in Htop. injection Htop as ->. lia.
  - apply (sortedKeys_pairs freqMap entries 0 (S j)); [done | lia | done | done].
Qed.

Lemma rank_puts_larger_counts_first_witness :
  sortByFrequency (sorter := insertion) cat_dog ["cat"; "dog"] /\
  List.length ["cat"; "dog"] = size cat_dog /\
  (forall key count,
      cat_dog !! key = Some count -> (count <= index cat_dog "cat")%Z).
Proof.
  assert (Hrank : sortByFrequency (sorter := insertion) cat_dog ["cat"; "dog"]).
  { exists [("dog", 1%Z); ("cat", 2%Z)]. split; [|reflexivity].
    unfold range. vm_compute. apply perm_swap. }
  destruct (rank_puts_larger_counts_first (sorter := insertion) cat_dog _ Hrank)
    as (Hlen & _ & Htop).
  split; [exact Hrank|]. split; [exact Hlen|].
  intros key count. apply (Htop "cat" key count). reflexivity.
Defined.

(** X5: the ranking [main] asks for after the scan, for any category: it
    lists the keys of the category's tokens, each once, and no key comes
    before a key that more tokens have, provided the number of tokens fits
    in an [int]. *)
Theorem ranking_orders_by_occurrences `{sorter : sort.Sorter} (c : category)
    (lines : list string) (sortedKeys : list string) :
  (Z.of_nat (List.length (tokens c lines)) <= maxInt)%Z ->
  sortByFrequency (FrequencyTable c (scan lines)) sortedKeys ->
  NoDup sortedKeys /\
  (forall key, key ∈ sortedKeys <-> key ∈ keys_of c lines) /\
  (forall i j ki kj,
      (i < j)%nat -> sortedKeys !! i = Some ki -> sortedKeys !! j = Some kj ->
      (occurrences kj (keys_of c lines) <= occurrences ki (keys_of c lines))%nat).
Proof.
  intros Hlen (entries & Hrange & ->).
  split; [|split].
  - rewrite (sortedKeys_permutation _ entries Hrange).
    apply NoDup_fst_map_to_list.
  - intros key. by rewrite (sortedKeys_elem _ entries key Hrange), scan_keys.
  - intros i j ki kj Hij Hi Hj.
    pose proof (sortedKeys_pairs _ entries i j ki kj Hrange Hij Hi Hj) as Hle.
    rewrite !scan_index in Hle by done. lia.
Qed.

Lemma ranking_orders_by_occurrences_witness :
  exists sortedKeys,
    sortByFrequency (sorter := insertion)
      (FrequencyTable english_word (scan ["dog Cat cat"])) sortedKeys /\
    sortedKeys = ["cat"; "dog"] /\
    (forall key, key ∈ sortedKeys <-> key ∈ keys_of english_word ["dog Cat cat"]).
Proof.
  assert (Hlen : (Z.of_nat (List.length (tokens english_word ["dog Cat cat"]))
                  <= maxInt)%Z) by (vm_compute; discriminate).
  assert (Hrank : sortByFrequency (sorter := insertion)
                    (FrequencyTable english_word (scan ["dog Cat cat"]))
                    ["cat"; "dog"]).
  { exists [("dog", 1%Z); ("cat", 2%Z)]. split; [|reflexivity].
    unfold range. vm_compute. apply perm_swap. }
  exists ["cat"; "dog"]. split; [exact Hrank|]. split; [reflexivity|].
  exact (proj1 (proj2 (ranking_orders_by_occurrences (sorter := insertion)
                         english_word ["dog Cat cat"] _ Hlen Hrank))).
Defined.

(** ** What [main] prints and which files it touches *)

Section Runs.

Context `{sorter : sort.Sorter}.

(** [main] either stops before the writes, with every file as it was, or
    has scanned the whole input and goes through the four writes. *)
Lemma main_cases (a : answers) (fs : string -> sink) (w w' : world) :
  main a fs w w' ->
  (~ scanned a /\ files w' = files w /\
   exists printed, stdout w' = stdout w ++ printed /\ success ∉ printed)
  \/ (scanned a /\ report (scan (lines a)) fs (greeted a w) w').
Proof.
  unfold main, scanned.
  destruct (dialog_err a) as [err|] eqn:Hdialog.
  { intros ->. left. split; [by intros [[=] _]|]. split; [done|].
    eexists. split; [cbn; by rewrite <- app_assoc|].
    intros Hin. repeat (apply elem_of_cons in Hin as [[=]|Hin]).
    by apply elem_of_nil in Hin. }
  case_decide as Hfile.
  { intros ->. left. split; [by intros (_ & ? & _)|]. split; [done|].
    eexists. split; [cbn; by rewrite <- app_assoc|].
    intros Hin. repeat (apply elem_of_cons in Hin as [[=]|Hin]).
    by apply elem_of_nil in Hin. }
  destruct (open_err a) as [err|] eqn:Hopen.
  { intros ->. left. split; [by intros (_ & _ & [=] & _)|]. split; [done|].
    eexists. split; [cbn; by rewrite <- !app_assoc|].
    intros Hin. repeat (apply elem_of_cons in Hin as [[=]|Hin]).
    by apply elem_of_nil in Hin. }
  destruct (scanner_err a) as [err|] eqn:Hscanner.
  { intros ->. left. split; [by intros (_ & _ & _ & [=])|]. split; [done|].
    eexists. split; [cbn; by rewrite <- !app_assoc|].
    intros Hin. repeat (apply elem_of_cons in Hin as [[=]|Hin]).
    by apply elem_of_nil in Hin. }
  intros Hreport. by right.
Qed.

Lemma delivered_keeps (fs : string -> sink) (p : string) (data : list string)
    (old : option string) :
  is_Some old -> is_Some (delivered fs p data old).
Proof. unfold delivered. destruct (fs p); eauto. Qed.

Lemma delivered_twice (fs : string -> sink) (p : string)
    (data1 data2 : list string) (old : option string) :
  delivered fs p data2 (delivered fs p data1 old) = delivered fs p data2 old.
Proof. unfold delivered. by destruct (fs p). Qed.

(** The ranking of an empty table is empty. *)
Lemma sortByFrequency_empty (sortedKeys : list string) :
  sortByFrequency ∅ sortedKeys -> sortedKeys = [].
Proof.
  intros (entries & Hrange & ->).
  pose proof (sortedKeys_permutation ∅ entries Hrange) as Hperm.
  rewrite map_to_list_empty in Hperm. by apply Permutation_nil_r in Hperm.
Qed.

(** A category without tokens leaves its table and its list empty. *)
Lemma scan_no_tokens (c : category) (lines : list string) :
  tokens c lines = [] ->
  FrequencyTable c (scan lines) = ∅ /\ DuplicatedList c (scan lines) = [].
Proof.
  intros Hnone. pose proof (scan_aggregate c lines) as Hscan.
  rewrite Hnone in Hscan. cbn in Hscan. by injection Hscan as -> ->.
Qed.

End Runs.





(** X7: after a scan without error [main] prints its two lines of
    greeting, one line for each destination that could not be created, in
    the order of the writes, and then the line that says the files were
    written, whatever happened to the four sinks. *)
Theorem success_line_whatever_the_sinks `{sorter : sort.Sorter} (a : answers)
    (fs : string -> sink) (w w' : world) :
  scanned a -> main a fs w w' ->
  stdout w' =
    stdout w
    ++ ["Select the input file:" +:+ LF;
        "Selected input file: " +:+ inputFile a +:+ LF]
    ++ complaint fs chineseFileDedup ++ complaint fs chineseFileDup
    ++ complaint fs englishFileDedup ++ complaint fs englishFileDup
    ++ [success].
Proof.
  intros Hscanned Hmain. apply (main_scanned a fs w w' Hscanned) in Hmain.
  destruct Hmain as (cs & es & _ & _ & ->).
  cbn [stdout Print]. rewrite !writeToFile_stdout. unfold greeted, complaint.
  cbn [stdout Print]. by rewrite <- !app_assoc.
Qed.

Lemma success_line_whatever_the_sinks_witness :
  exists w',
    main (sorter := insertion) cat_cat_dog read_only blank w' /\
    stdout w' =
      ["Select the input file:" +:+ LF;
       "Selected input file: input.txt" +:+ LF;
       "Error creating file deduplicated_chinese.txt: permission denied" +:+ LF;
       success].
Proof.
  destruct (main_total (sorter := insertion) cat_cat_dog read_only blank)
    as [w' Hmain].
  assert (Hscanned : scanned cat_cat_dog) by (repeat split; discriminate).
  exists w'. split; [exact Hmain|].
  rewrite (success_line_whatever_the_sinks (sorter := insertion) cat_cat_dog
             read_only blank w' Hscanned Hmain).
  reflexivity.
Defined.

(** X8: in every run, [main] changes no file but its four destinations
    and removes none. *)
Theorem main_touches_only_destinations `{sorter : sort.Sorter} (a : answers)
    (fs : string -> sink) (w w' : world) :
  main a fs w w' ->
  (forall p, p ∉ destinations -> files w' !! p = files w !! p) /\
  (forall p, is_Some (files w !! p) -> is_Some (files w' !! p)).
Proof.
  intros [(_ & -> & _)|[_ Hreport]]%main_cases; [done|].
  apply report_files in Hreport as (cs & es & _ & _ & Hfiles).
  split; intros p Hp; rewrite Hfiles.
  - unfold destinations in Hp.
    repeat case_decide; subst; try done; exfalso; apply Hp;
      repeat (first [apply list_elem_of_here | apply list_elem_of_further]).
  - repeat case_decide; try done; by apply delivered_keeps.
Qed.

Lemma main_touches_only_destinations_witness :
  exists w',
    main (sorter := insertion) cat_cat_dog read_only
      (World [] {[ "notes.txt" := "mine" ]}) w' /\
    files w' !! "notes.txt" = Some "mine".
Proof.
  destruct (main_total (sorter := insertion) cat_cat_dog read_only
              (World [] {[ "notes.txt" := "mine" ]})) as [w' Hmain].
  exists w'. split; [exact Hmain|].
  destruct (main_touches_only_destinations (sorter := insertion) cat_cat_dog
              read_only _ w' Hmain) as [Hframe _].
  rewrite Hframe; [reflexivity|].
  unfold destinations. intros Hin.
  repeat (apply elem_of_cons in Hin as [Hin|Hin]; [discriminate Hin|]).
  by apply elem_of_nil in Hin.
Defined.

(** X9: two calls of [writeToFile]: on the same path the files are as
    after the second call alone, and on different paths the order of the
    calls does not matter to the files. *)
Theorem writeToFile_composes (fs : string -> sink) (p q : string)
    (data1 data2 : list string) (w : world) :
  files (writeToFile fs p data2 (writeToFile fs p data1 w))
  = files (writeToFile fs p data2 w) /\
  (p <> q ->
   files (writeToFile fs p data1 (writeToFile fs q data2 w))
   = files (writeToFile fs q data2 (writeToFile fs p data1 w))).
Proof.
  split; [|intros Hpq]; apply map_eq; intros k; rewrite !writeToFile_files;
    repeat case_decide; subst; try done.
  apply delivered_twice.
Qed.

(** X10: after a scan that found no Chinese character and no English
    word, an empty file among others, each destination that is writable
    holds no record at all. *)
Theorem no_tokens_empty_files `{sorter : sort.Sorter} (a : answers)
    (fs : string -> sink) (w w' : world) (p : string) :
  scanned a ->
  tokens chinese_character (lines a) = [] ->
  tokens english_word (lines a) = [] ->
  main a fs w w' ->
  p ∈ destinations -> fs p = Writable ->
  files w' !! p = Some EmptyString.
Proof.
  intros Hscanned [Hcf Hcl]%scan_no_tokens [Hef Hel]%scan_no_tokens Hmain Hp Hfs.
  cbn [FrequencyTable DuplicatedList] in *.
  apply (main_scanned a fs w w' Hscanned) in Hmain.
  apply report_files in Hmain as (cs & es & Hcs & Hes & Hfiles).
  rewrite Hcf in Hcs. rewrite Hef in Hes.
  apply sortByFrequency_empty in Hcs as ->.
  apply sortByFrequency_empty in Hes as ->.
  rewrite Hfiles, Hcl, Hel. unfold delivered. rewrite Hfs.
  unfold destinations in Hp.
  repeat case_decide; try done.
  exfalso. repeat (apply elem_of_cons in Hp as [Hp|Hp]; [done|]).
  by apply elem_of_nil in Hp.
Qed.

Lemma no_tokens_empty_files_witness :
  exists w',
    main (sorter := insertion) empty_file (fun _ => Writable) blank w' /\
    files w' !! englishFileDedup = Some EmptyString.
Proof.
  destruct (main_total (sorter := insertion) empty_file (fun _ => Writable) blank)
    as [w' Hmain].
  exists w'. split; [exact Hmain|].
  apply (no_tokens_empty_files (sorter := insertion) empty_file
           (fun _ => Writable) blank w' englishFileDedup);
    [repeat split; discriminate | reflexivity | reflexivity | exact Hmain
    | | reflexivity].
  unfold destinations. do 2 apply list_elem_of_further. apply list_elem_of_here.
Defined.

(** ** The format of the output files *)

Section Records.

Local Open Scope Z_scope.

Lemma bytes_records_cons (item : string) (data : list string) :
  bytes (records (item :: data))
  = bytes item ++ ascii_of_nat 10 :: bytes (records data).
Proof.
  change (records (item :: data)) with (item +:+ LF +:+ records data).
  by rewrite !bytes_append.
Qed.

(** Two lists that agree up to and including the first [c] of each. *)
Lemma app_cons_unique {B : Type} (c : B) (x y r1 r2 : list B) :
  c ∉ x -> c ∉ y -> x ++ c :: r1 = y ++ c :: r2 -> x = y /\ r1 = r2.
Proof.
  revert y. induction x as [|a x IH]; intros [|b y] Hx Hy Heq; cbn in Heq.
  - by injection Heq as ->.
  - injection Heq as <- _. exfalso. apply Hy. apply list_elem_of_here.
  - injection Heq as -> _. exfalso. apply Hx. apply list_elem_of_here.
  - injection Heq as -> Heq.
    destruct (IH y) as [-> ->]; [| |done|done].
    + intros Hin. apply Hx. by apply list_elem_of_further.
    + intros Hin. apply Hy. by apply list_elem_of_further.
Qed.

Lemma newline_free_notin (s : string) :
  newline_free s -> ascii_of_nat 10 ∉ bytes s.
Proof.
  unfold newline_free. rewrite Forall_forall. intros Hfree Hin.
  by apply (Hfree _ Hin).
Qed.

Lemma records_inj (data1 data2 : list string) :
  Forall newline_free data1 -> Forall newline_free data2 ->
  records data1 = records data2 -> data1 = data2.
Proof.
  intros Hfree1. revert data2.
  induction Hfree1 as [|item1 data1 Hitem1 Hfree1 IH];
    intros data2 Hfree2 Heq; destruct Hfree2 as [|item2 data2 Hitem2 Hfree2].
  - done.
  - apply (f_equal bytes) in Heq. rewrite bytes_records_cons in Heq.
    cbn in Heq. by destruct (bytes item2).
  - apply (f_equal bytes) in Heq. rewrite bytes_records_cons in Heq.
    cbn in Heq. by destruct (bytes item1).
  - apply (f_equal bytes) in Heq. rewrite !bytes_records_cons in Heq.
    apply app_cons_unique in Heq as [Hitem Hrest];
      [| by apply newline_free_notin | by apply newline_free_notin].
    apply bytes_inj in Hitem as ->. apply bytes_inj in Hrest.
    f_equal. by apply IH.
Qed.

Lemma ToLower_newline_free (s : string) :
  newline_free s -> newline_free (strings.ToLower s).
Proof.
  unfold newline_free. rewrite bytes_ToLower, Forall_fmap.
  intros Hfree. eapply Forall_impl; [exact Hfree|].
  intros b Hb. cbn. rewrite code_lower.
  destruct (between _ _ (code b)) eqn:Hupper; [|done].
  revert Hupper. tests. lia.
Qed.

(** A rune of [RuneSelf] or more is decoded from bytes of [RuneSelf] or
    more. *)
Lemma DecodeRuneInString_high (p : list ascii) (r : rune) (w : nat) :
  DecodeRuneInString p = (r, w) -> RuneSelf <= r ->
  Forall (fun b => RuneSelf <= code b) (take w p).
Proof.
  unfold DecodeRuneInString, RuneSelf, RuneError, accept.
  destruct p as [|b0 p1]; [intros [= <- <-]; constructor|].
  destruct (code b0 <? 128) eqn:Hself; [intros [= <- <-]; tests; lia|].
  intros Hdec _. revert Hdec.
  repeat match goal with
         | |- context [match ?l with [] => _ | _ :: _ => _ end] => destruct l
         | |- context [if ?t then _ else _] => destruct t eqn:?
         | |- (let '(_, _) := ?t in _) = _ -> _ => destruct t eqn:?
         end;
    intros [= <- <-]; simplify_eq; cbn [take]; tests;
    repeat constructor; lia.
Qed.

(** The bytes of one step: the rune itself, or bytes of [RuneSelf] or more
    for a rune of [RuneSelf] or more. *)
Lemma step_bytes (i i' : input) (r : rune) (m : list ascii) :
  step i = Some (r, m, i') ->
  Forall (fun b => code b = r \/ (RuneSelf <= r /\ RuneSelf <= code b)) m.
Proof.
  intros Hstep. destruct (Z.lt_ge_cases r RuneSelf) as [Hlow|Hhigh].
  - destruct (step_ascii _ _ _ _ Hstep Hlow) as (b & -> & <-).
    constructor; [by left | constructor].
  - revert Hstep. unfold step.
    destruct (DecodeRuneInString (after i)) as [r0 w] eqn:Hdec.
    destruct w as [|w]; [done|]. intros [= <- <- <-].
    eapply Forall_impl; [by eapply DecodeRuneInString_high|].
    intros b Hb. cbn in Hb. by right.
Qed.

(** A property of bytes that follows from a property of the runes of the
    classes of a pattern holds of every byte of every match. *)
Lemma run_bytes (P : rune -> Prop) (Q : ascii -> Prop) (re : Regexp) :
  (forall r b, P r -> code b = r \/ (RuneSelf <= r /\ RuneSelf <= code b) -> Q b) ->
  within P re ->
  forall i i' m, (m, i') ∈ run re i -> Forall Q m.
Proof.
  intros HPQ. induction re as [r|cls| |r1 IH1 r2 IH2|r IH|r IH|r IH];
    cbn [within]; intros Hre i i' m Hin.
  - apply run_OpLiteral in Hin.
    eapply Forall_impl; [by eapply step_bytes|]. intros b Hb. by eapply HPQ.
  - apply run_OpCharClass in Hin as (r & Hstep & Hcls).
    eapply Forall_impl; [by eapply step_bytes|]. intros b Hb.
    eapply HPQ; [by apply Hre | done].
  - by apply run_OpWordBoundary in Hin as [-> _].
  - destruct Hre as [Hre1 Hre2].
    apply run_OpConcat in Hin as (m1 & i1 & m2 & H1 & H2 & ->).
    apply Forall_app. split; [by eapply IH1 | by eapply IH2].
  - cbn [run] in Hin. eapply iterate_Forall; [|done]. intros; by eapply IH.
  - cbn [run] in Hin. apply list_elem_of_bind in Hin as ([m1 i1] & Hin & H1).
    apply list_elem_of_bind in Hin as ([m2 i2] & Hin & H2).
    apply list_elem_of_singleton in Hin as [= -> ->].
    apply Forall_app. split; [by eapply IH|].
    eapply iterate_Forall; [|done]. intros; by eapply IH.
  - cbn [run] in Hin.
    apply elem_of_app in Hin as [Hin|[= -> ->]%list_elem_of_singleton];
      [by eapply IH | done].
Qed.

(** The Han script starts far above the ASCII range. *)
Lemma class_Han_lower (r : rune) : class_Han r = true -> 0x2e80 <= r.
Proof.
  unfold class_Han, unicode.Is, unicode.Han. cbn [existsb]. tests. lia.
Qed.

Lemma tokens_elem (c : category) (lines : list string) (tok : string) :
  tok ∈ tokens c lines ->
  exists m first stop, tok = gostring m /\ (m, stop) ∈ run (pattern c) first.
Proof.
  unfold tokens. intros (line & Hin & _)%list_elem_of_bind.
  by eapply FindAllString_elem.
Qed.

(** No token of a Chinese character or of an English word holds a line
    terminator. *)
Lemma written_tokens_newline_free (c : category) (lines : list string)
    (tok : string) :
  c = chinese_character \/ c = english_word ->
  tok ∈ tokens c lines -> newline_free tok.
Proof.
  intros Hc (m & first & stop & -> & Hrun)%tokens_elem.
  unfold newline_free. rewrite list_ascii_of_string_of_list_ascii.
  refine (run_bytes (fun r => r <> 10) _ _ _ _ _ _ _ Hrun).
  - unfold RuneSelf. intros r b Hr [<-|[? ?]]; [done | lia].
  - destruct Hc as [-> | ->]; cbn.
    + intros r Hr%class_Han_lower. lia.
    + codes. repeat split; try lia; intros r; unfold class_word, is_alnum;
        tests; lia.
Qed.

End Records.

(** X11: the format of [writeToFile] loses nothing: two lists of strings
    without a line terminator that give the same records are the same
    list. *)
Theorem records_determine_the_list (data1 data2 : list string) :
  Forall newline_free data1 -> Forall newline_free data2 ->
  records data1 = records data2 -> data1 = data2.
Proof. apply records_inj. Qed.

Lemma records_determine_the_list_witness :
  Forall newline_free ["cat"; "dog"] /\
  (records ["cat"; "dog"] = records ["cat"; "dog"] ->
   ["cat"; "dog"] = ["cat"; "dog"]).
Proof.
  assert (Hfree : Forall newline_free ["cat"; "dog"]).
  { repeat constructor; vm_compute; discriminate. }
  split; [exact Hfree|].
  exact (records_determine_the_list ["cat"; "dog"] ["cat"; "dog"] Hfree Hfree).
Defined.

(** X12: what [main] hands to [writeToFile] never holds a line terminator,
    so that each record is one line: the tokens of the Chinese characters
    and of the English words, and the keys of their two tables, which are
    the keys the rankings list. *)
Theorem written_strings_have_no_newline (lines : list string) :
  Forall newline_free (chineseCharList (scan lines)) /\
  Forall newline_free (englishWordList (scan lines)) /\
  (forall key, is_Some (chineseCharFreq (scan lines) !! key) -> newline_free key) /\
  (forall key, is_Some (englishWordFreq (scan lines) !! key) -> newline_free key).
Proof.
  split; [|split; [|split]].
  - change (Forall newline_free (DuplicatedList chinese_character (scan lines))).
    rewrite scan_list, Forall_forall. intros tok.
    apply written_tokens_newline_free. by left.
  - change (Forall newline_free (DuplicatedList english_word (scan lines))).
    rewrite scan_list, Forall_forall. intros tok.
    apply written_tokens_newline_free. by right.
  - intros key Hkey.
    change (is_Some (FrequencyTable chinese_character (scan lines) !! key)) in Hkey.
    apply scan_keys, list_elem_of_fmap in Hkey as (tok & -> & Htok).
    eapply written_tokens_newline_free; [by left | done].
  - intros key Hkey.
    change (is_Some (FrequencyTable english_word (scan lines) !! key)) in Hkey.
    apply scan_keys, list_elem_of_fmap in Hkey as (tok & -> & Htok).
    apply ToLower_newline_free.
    eapply written_tokens_newline_free; [by right | done].
Qed.

(** ** Where the tokens lie in the line *)

Section Scattered.

Lemma scattered_gap (gap : list ascii) (toks : list (list ascii))
    (s : list ascii) :
  scattered toks s -> scattered toks (gap ++ s).
Proof.
  intros [s'|gap' tok toks' s' Hrest]; [constructor|].
  rewrite app_assoc. by constructor.
Qed.

Lemma scattered_length (toks : list (list ascii)) (s : list ascii) :
  scattered toks s ->
  (sum_list (List.length <$> toks) <= List.length s)%nat.
Proof.
  induction 1 as [s|gap tok toks s Hrest IH]; cbn; [lia|].
  rewrite !length_app. lia.
Qed.

Lemma scattered_substring (toks : list (list ascii)) (s tok : list ascii) :
  scattered toks s -> tok ∈ toks -> exists pre post, s = pre ++ tok ++ post.
Proof.
  induction 1 as [s|gap tok' toks s Hrest IH]; [by intros ?%elem_of_nil|].
  intros [->|Hin]%elem_of_cons; [by exists gap, s|].
  destruct (IH Hin) as (pre & post & ->).
  exists (gap ++ tok' ++ pre), post. by rewrite <- !app_assoc.
Qed.

Lemma doExecute_gap (re : Regexp) (fuel : nat) (pos first stop : input)
    (m : list ascii) :
  doExecute re fuel pos = Some (first, m, stop) ->
  exists gap, after pos = gap ++ after first.
Proof.
  revert pos. induction fuel as [|fuel IH]; intros pos; cbn [doExecute];
    destruct (run re pos) as [|[m0 i0] l] eqn:Hrun.
  - done.
  - intros [= -> -> ->]. by exists [].
  - destruct (step pos) as [[[? m1] next]|] eqn:Hstep; [|done].
    intros (gap & Hgap)%IH. apply step_Some in Hstep as [Hafter _].
    exists (m1 ++ gap). by rewrite Hafter, Hgap, app_assoc.
  - intros [= -> -> ->]. by exists [].
Qed.

Lemma allMatches_scattered (re : Regexp) (fuel : nat) (pos : input)
    (prevMatchEnd : option nat) :
  scattered (allMatches re fuel pos prevMatchEnd) (after pos).
Proof.
  revert pos prevMatchEnd. induction fuel as [|fuel IH]; intros pos prev;
    cbn [allMatches]; [constructor|].
  destruct (doExecute re (remaining pos) pos) as [[[first m] stop]|] eqn:Hexec;
    [|constructor].
  destruct (doExecute_gap _ _ _ _ _ _ Hexec) as [gap Hgap].
  apply doExecute_Some, run_after in Hexec.
  destruct (Nat.eqb_spec (remaining stop) (remaining pos)) as [Heq|Hne].
  - assert (Hrest : scattered
                      match step pos with
                      | Some (_, _, next) =>
                          allMatches re fuel next (Some (remaining stop))
                      | None => []
                      end (after pos)).
    { destruct (step pos) as [[[? m1] next]|] eqn:Hstep; [|constructor].
      apply step_Some in Hstep as [-> _]. apply scattered_gap, IH. }
    destruct (negb _); [|done].
    assert (m = []) as ->.
    { unfold remaining in Heq. rewrite Hgap, Hexec, !length_app in Heq.
      destruct m; [done | cbn in Heq; lia]. }
    by apply (scattered_cons [] []).
  - rewrite Hgap, Hexec. constructor. apply IH.
Qed.

Lemma bytes_gostring_fmap (l : list (list ascii)) :
  bytes <$> (gostring <$> l) = l.
Proof.
  induction l as [|m l IH]; [done|]. cbn.
  by rewrite list_ascii_of_string_of_list_ascii, IH.
Qed.

Lemma FindAllString_scattered (re : Regexp) (s : string) :
  scattered (bytes <$> FindAllString re s) (bytes s).
Proof.
  unfold FindAllString. rewrite bytes_gostring_fmap.
  apply (allMatches_scattered re _ (start (bytes s))).
Qed.

End Scattered.

(** X13: the tokens a pattern gives for a line lie in the line one after
    the other, from left to right and without overlap; each is a piece of
    the line, and together they are no longer than the line. *)
Theorem tokens_lie_in_the_line (c : category) (line : string) :
  scattered (bytes <$> FindAllString (pattern c) line) (bytes line) /\
  (forall tok, tok ∈ FindAllString (pattern c) line ->
     exists pre post, line = pre +:+ tok +:+ post) /\
  (sum_list (String.length <$> FindAllString (pattern c) line)
   <= String.length line)%nat.
Proof.
  pose proof (FindAllString_scattered (pattern c) line) as Hscattered.
  split; [done|]. split.
  - intros tok Htok.
    destruct (scattered_substring _ _ (bytes tok) Hscattered) as (pre & post & Heq).
    { apply list_elem_of_fmap. by exists tok. }
    exists (gostring pre), (gostring post). apply bytes_inj.
    by rewrite !bytes_append, !list_ascii_of_string_of_list_ascii.
  - apply scattered_length in Hscattered.
    rewrite <- length_bytes.
    replace (String.length <$> FindAllString (pattern c) line)
      with (List.length <$> (bytes <$> FindAllString (pattern c) line)); [done|].
    rewrite <- list_fmap_compose. apply list_fmap_ext.
    intros _ tok _. cbn. apply length_bytes.
Qed.

(** ** The shape of the tokens and of the keys *)

Section Shapes.

Local Open Scope Z_scope.

(** One or more runes of a class make a match that is not empty. *)
Lemma run_OpPlus_nonempty (cls : rune -> bool) (i i' : input) (m : list ascii) :
  (m, i') ∈ run (OpPlus (OpCharClass cls)) i -> m <> [].
Proof.
  cbn [run]. intros ([m1 i1] & Hin & H1)%list_elem_of_bind.
  apply list_elem_of_bind in Hin as ([m2 i2] & Hin & _).
  apply list_elem_of_singleton in Hin as [= -> ->].
  destruct (step i) as [[[r m0] i0]|] eqn:Hstep; [|by apply elem_of_nil in H1].
  destruct (cls r); [|by apply elem_of_nil in H1].
  apply list_elem_of_singleton in H1 as [= <- <-].
  apply step_Some in Hstep as (_ & Hm & _). by destruct m1.
Qed.

Lemma run_OpQuest (r : Regexp) (i i' : input) (m : list ascii) :
  (m, i') ∈ run (OpQuest r) i <-> (m, i') ∈ run r i \/ (m = [] /\ i' = i).
Proof.
  change (run (OpQuest r) i) with (run r i ++ [([], i)]).
  rewrite elem_of_app, list_elem_of_singleton.
  split; (intros [?|Heq]; [by left | right]); [by injection Heq | by destruct Heq as [-> ->]].
Qed.

Lemma run_class_word (re : Regexp) (i i' : input) (m : list ascii) :
  within (fun r => class_word r = true) re ->
  (m, i') ∈ run re i -> Forall (fun b => class_word (code b) = true) m.
Proof.
  intros Hre. by apply (run_within (fun r => class_word r = true) re
                          class_word_ascii Hre).
Qed.

(** A match of the word pattern: a run of letters, digits and
    apostrophes, and possibly a hyphen and a second such run. *)
Lemma englishWord_shape (i i' : input) (m : list ascii) :
  (m, i') ∈ run englishWordRegex i ->
  exists w1 rest,
    m = w1 ++ rest /\ w1 <> [] /\
    Forall (fun b => class_word (code b) = true) w1 /\
    (rest = [] \/
     exists w2, rest = "-"%char :: w2 /\ w2 <> [] /\
                Forall (fun b => class_word (code b) = true) w2).
Proof.
  unfold englishWordRegex.
  intros (m0 & i0 & ma & [-> ->]%run_OpWordBoundary & Hrun & ->)%run_OpConcat.
  apply run_OpConcat in Hrun as (w1 & i1 & mb & H1 & Hrun & ->).
  apply run_OpConcat in Hrun
    as (mq & i2 & mc & Hq & [-> ->]%run_OpWordBoundary & ->).
  exists w1, mq. rewrite app_nil_r. cbn [app].
  split; [done|]. split; [by eapply run_OpPlus_nonempty|].
  split; [eapply run_class_word; [|done]; by cbn|].
  apply run_OpQuest in Hq as [Hq|[-> ->]]; [right | by left].
  apply run_OpConcat in Hq as (ml & i3 & w2 & Hl & H2 & ->).
  apply run_OpLiteral in Hl.
  destruct (step_ascii _ _ _ _ Hl) as (b & -> & Hb); [unfold RuneSelf; by codes|].
  apply code_inj in Hb as ->.
  exists w2. split; [done|]. split; [by eapply run_OpPlus_nonempty|].
  eapply run_class_word; [|done]. by cbn.
Qed.

Lemma lower_idem (b : ascii) : strings.lower (strings.lower b) = strings.lower b.
Proof.
  apply code_inj. rewrite !code_lower.
  destruct (between _ _ (code b)) eqn:Hupper.
  - destruct (between _ _ (code b + 32)) eqn:Hupper'; [|done].
    revert Hupper Hupper'. tests. lia.
  - by rewrite Hupper.
Qed.

Lemma ToLower_idem (s : string) :
  strings.ToLower (strings.ToLower s) = strings.ToLower s.
Proof.
  apply bytes_inj. rewrite !bytes_ToLower, <- list_fmap_compose.
  apply list_fmap_ext. intros _ b _. apply lower_idem.
Qed.

Lemma lower_alnum (b : ascii) :
  is_alnum (code b) = true -> is_alnum (code (strings.lower b)) = true.
Proof.
  rewrite code_lower. destruct (between _ _ (code b)) eqn:Hupper; [|done].
  intros _. revert Hupper. unfold is_alnum. tests. lia.
Qed.

(** The key of a token of the phrase pattern is its lowercase, and
    normalizing it again changes nothing. *)
Lemma englishPhrase_key (line tok : string) :
  tok ∈ FindAllString englishPhrasesRegex line ->
  normalize english_phrase tok = strings.ToLower tok /\
  normalize english_phrase (strings.ToLower tok) = strings.ToLower tok.
Proof.
  intros (m & first & stop & -> & Hrun)%FindAllString_elem.
  apply englishPhrase_shape in Hrun as (a & mid & z & -> & Ha & Hz & _).
  cbn [normalize]. rewrite (TrimSpace_alnum_ends a z mid Ha Hz).
  split; [done|].
  assert (Hlower : strings.ToLower (gostring (a :: mid ++ [z]))
                   = gostring (strings.lower a :: (strings.lower <$> mid)
                                 ++ [strings.lower z])).
  { unfold strings.ToLower. rewrite list_ascii_of_string_of_list_ascii.
    by rewrite fmap_cons, fmap_app. }
  rewrite Hlower at 1.
  rewrite TrimSpace_alnum_ends by by apply lower_alnum.
  rewrite <- Hlower. apply ToLower_idem.
Qed.

(** Every key under which a token is counted is its own normal form. *)
Lemma keys_of_normal (c : category) (lines : list string) (key : string) :
  key ∈ keys_of c lines -> normalize c key = key.
Proof.
  unfold keys_of, tokens.
  intros (tok & -> & (line & Htok & _)%list_elem_of_bind)%list_elem_of_fmap.
  destruct c; cbn [normalize pattern] in *; try done.
  - apply ToLower_idem.
  - destruct (englishPhrase_key line tok Htok) as [Hkey Hagain].
    cbn [normalize] in Hkey, Hagain. by rewrite Hkey.
Qed.

End Shapes.

(** X14: a token of the word pattern is a run of letters, digits and
    apostrophes, or two such runs joined by one hyphen: it is not empty,
    holds no blank, and a hyphen in it is neither its first nor its last
    byte. *)
Theorem word_tokens_have_at_most_one_hyphen (line tok : string) :
  tok ∈ FindAllString englishWordRegex line ->
  exists w1 rest,
    bytes tok = w1 ++ rest /\ w1 <> [] /\
    Forall (fun b => class_word (code b) = true) w1 /\
    (rest = [] \/
     exists w2, rest = "-"%char :: w2 /\ w2 <> [] /\
                Forall (fun b => class_word (code b) = true) w2).
Proof.
  intros (m & first & stop & -> & Hrun)%FindAllString_elem.
  rewrite list_ascii_of_string_of_list_ascii. by eapply englishWord_shape.
Qed.

Lemma word_tokens_have_at_most_one_hyphen_witness :
  "micro-video" ∈ FindAllString englishWordRegex "new micro-video-apps" /\
  exists w1 w2,
    bytes "micro-video" = w1 ++ "-"%char :: w2 /\ w1 <> [] /\ w2 <> [].
Proof.
  assert (Hin : "micro-video"
                ∈ FindAllString englishWordRegex "new micro-video-apps")
    by (vm_compute; apply list_elem_of_further, list_elem_of_here).
  split; [exact Hin|].
  destruct (word_tokens_have_at_most_one_hyphen _ _ Hin)
    as (w1 & rest & Heq & Hw1 & Hall & [->|(w2 & -> & Hw2 & _)]).
  - exfalso. rewrite app_nil_r in Heq. subst w1.
    apply Forall_forall with (x := "-"%char) in Hall; [discriminate Hall|].
    cbn. do 5 apply list_elem_of_further. apply list_elem_of_here.
  - by exists w1, w2.
Defined.

(** X15: every key of a table is its own normal form: counted again as a
    token of the category it would fall under the same key.  The keys of
    the two English tables hold no capital letter, and those of the phrase
    table no blank at either end. *)
Theorem table_keys_are_normal (c : category) (lines : list string)
    (key : string) :
  is_Some (FrequencyTable c (scan lines) !! key) -> normalize c key = key.
Proof. intros Hkey%scan_keys. by eapply keys_of_normal. Qed.

Lemma table_keys_are_normal_witness :
  is_Some (FrequencyTable english_phrase (scan ["Hello World, bye"])
             !! "hello world") /\
  normalize english_phrase "hello world" = "hello world".
Proof.
  assert (Hkey : is_Some (FrequencyTable english_phrase
                            (scan ["Hello World, bye"]) !! "hello world"))
    by (exists 1%Z; vm_compute; reflexivity).
  split; [exact Hkey|].
  exact (table_keys_are_normal english_phrase ["Hello World, bye"] _ Hkey).
Defined.

(** ** The Chinese tokens are the Han runes of the line *)

Section Han.

Local Open Scope Z_scope.

Lemma chunks_fuel (n1 n2 : nat) (i : input) :
  (remaining i <= n1)%nat -> (remaining i <= n2)%nat ->
  chunks n1 i = chunks n2 i.
Proof.
  revert n2 i. induction n1 as [|n1 IH]; intros n2 i H1 H2.
  - destruct n2 as [|n2]; [done|]. cbn. by rewrite step_end by lia.
  - destruct n2 as [|n2]; cbn; [by rewrite step_end by lia|].
    destruct (step i) as [[[r m] i']|] eqn:Hstep; [|done].
    apply step_remaining in Hstep. f_equal. apply IH; lia.
Qed.

(** The runes from a position on: none at the end, and otherwise the rune
    of the next step and the runes after it. *)
Lemma chunks_step (i : input) :
  chunks (remaining i) i
  = match step i with
    | Some (r, m, i') => (r, m) :: chunks (remaining i') i'
    | None => []
    end.
Proof.
  destruct (step i) as [[[r m] i']|] eqn:Hstep.
  - pose proof (step_remaining _ _ _ _ Hstep) as Hlt.
    destruct (remaining i) as [|n] eqn:Hn; [lia|].
    cbn. rewrite Hstep. f_equal. apply chunks_fuel; lia.
  - destruct (remaining i); cbn; [done | by rewrite Hstep].
Qed.

Lemma Han_bytes_cons (r : rune) (m : list ascii) (cs : list (rune * list ascii)) :
  Han_bytes ((r, m) :: cs)
  = if class_Han r then m :: Han_bytes cs else Han_bytes cs.
Proof.
  unfold Han_bytes. destruct (class_Han r) eqn:Hr.
  - by rewrite filter_cons_True by exact Hr.
  - rewrite filter_cons_False; [done|]. cbn [fst]. by rewrite Hr.
Qed.

(** The search for a Han rune passes over every other rune and stops at
    the first Han rune there is. *)
Lemma doExecute_Han (n : nat) (pos : input) :
  (remaining pos <= n)%nat ->
  match doExecute chineseCharacterRegex n pos with
  | Some (first, m, stop) =>
      Han_bytes (chunks (remaining pos) pos)
      = m :: Han_bytes (chunks (remaining stop) stop)
      /\ (remaining stop < remaining pos)%nat
  | None => Han_bytes (chunks (remaining pos) pos) = []
  end.
Proof.
  revert pos. induction n as [|n IH]; intros pos Hn;
    unfold chineseCharacterRegex; cbn [doExecute run]; rewrite chunks_step;
    destruct (step pos) as [[[r m] next]|] eqn:Hstep; try done;
    pose proof (step_remaining _ _ _ _ Hstep) as Hlt;
    rewrite Han_bytes_cons; destruct (class_Han r); try done; [lia|].
  specialize (IH next). fold chineseCharacterRegex.
  destruct (doExecute chineseCharacterRegex n next) as [[[first m'] stop]|].
  - destruct IH as [-> Hstop]; [lia|]. split; [done | lia].
  - apply IH. lia.
Qed.

Lemma allMatches_Han (n : nat) (pos : input) (prevMatchEnd : option nat) :
  (remaining pos < n)%nat ->
  allMatches chineseCharacterRegex n pos prevMatchEnd
  = Han_bytes (chunks (remaining pos) pos).
Proof.
  revert pos prevMatchEnd. induction n as [|n IH]; intros pos prev Hn; [lia|].
  cbn [allMatches].
  pose proof (doExecute_Han (remaining pos) pos (le_n _)) as Hexec.
  destruct (doExecute chineseCharacterRegex (remaining pos) pos)
    as [[[first m] stop]|]; [|done].
  destruct Hexec as [-> Hstop].
  destruct (Nat.eqb_spec (remaining stop) (remaining pos)); [lia|].
  f_equal. apply IH. lia.
Qed.








Lemma FindAllString_Han (line : string) :
  FindAllString chineseCharacterRegex line = gostring <$> Han_bytes (runes_of line).
Proof.
  unfold FindAllString, runes_of. f_equal.
  rewrite allMatches_Han; unfold remaining, start; cbn [after];
    rewrite length_bytes; [done | lia].
Qed.

End Han.

(** X16: the tokens of the character pattern are the runes of the Han
    script of the line, every one of them, in the order of the line. *)
Theorem character_tokens_are_the_Han_runes (line : string) :
  FindAllString chineseCharacterRegex line = gostring <$> Han_bytes (runes_of line).
Proof. apply FindAllString_Han. Qed.


(** ** A Chinese character token is one Han rune *)

Section HanRune.

Local Open Scope Z_scope.

Lemma class_Han_not_error (r : rune) : class_Han r = true -> r <> RuneError.
Proof.
  unfold class_Han, unicode.Is, unicode.Han, RuneError. cbn [existsb].
  tests. lia.
Qed.

(** The bytes a rune was decoded from decode to the rune, as long as the
    rune is Han: of three or four bytes, never a decoding error. *)
Lemma DecodeRuneInString_Han (p : list ascii) (r : rune) (w : nat) :
  DecodeRuneInString p = (r, w) -> class_Han r = true ->
  DecodeRuneInString (take w p) = (r, w) /\
  List.length (take w p) = w /\ (w = 3 \/ w = 4)%nat.
Proof.
  intros Hdec Hr. pose proof (class_Han_lower r Hr) as Hlow.
  pose proof (class_Han_not_error r Hr) as Herr.
  revert Hdec. unfold DecodeRuneInString, RuneSelf, RuneError in *.
  destruct p as [|b0 p1]; [intros [= <- <-]; lia|].
  destruct (code b0 <? 128) eqn:Hself;
    [intros [= <- <-]; revert Hself; tests; lia|].
  destruct (between 194 223 (code b0)) eqn:H2.
  { destruct p1 as [|b1 p1]; [intros [= <- <-]; lia|].
    destruct (continuation (code b1)) eqn:Hc1; [|intros [= <- <-]; lia].
    intros [= <- <-]. exfalso. revert H2 Hc1. tests. lia. }
  destruct (between 224 239 (code b0)) eqn:H3.
  { destruct p1 as [|b1 [|b2 p1]]; try (intros [= <- <-]; lia).
    destruct (accept (code b0)) as [lo hi] eqn:Hacc.
    destruct (between lo hi (code b1) && continuation (code b2)) eqn:Hc;
      [|intros [= <- <-]; lia].
    intros [= <- <-]. cbn [take List.length]. rewrite Hself, H2, H3, Hacc, Hc.
    rewrite take_0. split; [done|]. split; [done | by left]. }
  destruct (between 240 244 (code b0)) eqn:H4; [|intros [= <- <-]; lia].
  destruct p1 as [|b1 [|b2 [|b3 p1]]]; try (intros [= <- <-]; lia).
  destruct (accept (code b0)) as [lo hi] eqn:Hacc.
  destruct (between lo hi (code b1) && continuation (code b2)
            && continuation (code b3)) eqn:Hc; [|intros [= <- <-]; lia].
  intros [= <- <-]. cbn [take List.length]. rewrite Hself, H2, H3, H4, Hacc, Hc.
  rewrite take_0. split; [done|]. split; [done | by right].
Qed.

Lemma chineseCharacter_rune (i i' : input) (m : list ascii) :
  (m, i') ∈ run chineseCharacterRegex i ->
  exists r,
    class_Han r = true /\
    DecodeRuneInString m = (r, List.length m) /\
    (List.length m = 3 \/ List.length m = 4)%nat.
Proof.
  intros (r & Hstep & Hr)%run_OpCharClass. exists r. split; [done|].
  revert Hstep. unfold step.
  destruct (DecodeRuneInString (after i)) as [r0 w] eqn:Hdec.
  destruct w as [|w]; [done|]. intros [= <- <- <-].
  destruct (DecodeRuneInString_Han _ _ _ Hdec Hr) as (Htake & Hlen & Hw).
  by rewrite Hlen.
Qed.

End HanRune.

(** X18: a token of the character pattern is the UTF-8 encoding of one
    rune of the Han script, three or four bytes long: decoding the token
    gives that rune and takes the whole token. *)
Theorem character_token_is_one_Han_rune (line tok : string) :
  tok ∈ FindAllString chineseCharacterRegex line ->
  exists r,
    class_Han r = true /\
    DecodeRuneInString (bytes tok) = (r, String.length tok) /\
    (String.length tok = 3 \/ String.length tok = 4)%nat.
Proof.
  intros (m & first & stop & -> & Hrun)%FindAllString_elem.
  rewrite list_ascii_of_string_of_list_ascii, length_gostring.
  by eapply chineseCharacter_rune.
Qed.

Lemma character_token_is_one_Han_rune_witness :
  "好" ∈ FindAllString chineseCharacterRegex "你好, world" /\
  exists r,
    class_Han r = true /\
    DecodeRuneInString (bytes "好") = (r, String.length "好").
Proof.
  assert (Hin : "好" ∈ FindAllString chineseCharacterRegex "你好, world")
    by (vm_compute; apply list_elem_of_further, list_elem_of_here).
  split; [exact Hin|].
  destruct (character_token_is_one_Han_rune _ _ Hin) as (r & Hr & Hdec & _).
  exists r. split; [exact Hr | exact Hdec].
Defined.

(** ** What a run leaves open, and what the order of the lines changes *)

Section Order.

Context `{sorter : sort.Sorter}.

Lemma tokens_Permutation (c : category) (lines1 lines2 : list string) :
  lines1 ≡ₚ lines2 -> tokens c lines1 ≡ₚ tokens c lines2.
Proof. intros Hperm. unfold tokens. by rewrite Hperm. Qed.

Lemma occurrences_Permutation (key : string) (keys1 keys2 : list string) :
  keys1 ≡ₚ keys2 -> occurrences key keys1 = occurrences key keys2.
Proof. intros Hperm. unfold occurrences. by rewrite Hperm. Qed.

(** Two tables with the same keys and the same counts are the same
    table. *)
Lemma table_eq (table1 table2 : gmap string Z) :
  (forall key, is_Some (table1 !! key) <-> is_Some (table2 !! key)) ->
  (forall key, index table1 key = index table2 key) ->
  table1 = table2.
Proof.
  intros Hkeys Hindex. apply map_eq. intros key.
  specialize (Hkeys key). specialize (Hindex key). unfold index in Hindex.
  destruct (table1 !! key) as [v1|], (table2 !! key) as [v2|]; cbn in *.
  - by subst.
  - destruct Hkeys as [Hkeys _]. by destruct Hkeys.
  - destruct Hkeys as [_ Hkeys]. by destruct Hkeys.
  - done.
Qed.

(** The stdout of a run is the same in all its outcomes, and so is every
    file but the two rankings. *)
Lemma report_outcomes (st : state) (fs : string -> sink) (w w1 w2 : world) :
  report st fs w w1 -> report st fs w w2 ->
  stdout w1 = stdout w2 /\
  forall p, p <> chineseFileDedup -> p <> englishFileDedup ->
            files w1 !! p = files w2 !! p.
Proof.
  intros H1 H2. split.
  - destruct H1 as (cs1 & es1 & _ & _ & ->), H2 as (cs2 & es2 & _ & _ & ->).
    cbn [stdout Print]. by rewrite !writeToFile_stdout.
  - intros p Hc He.
    apply report_files in H1 as (cs1 & es1 & _ & _ & ->).
    apply report_files in H2 as (cs2 & es2 & _ & _ & ->).
    by repeat case_decide.
Qed.

End Order.

(** X19: two outcomes of the same run print the same lines and agree on
    every file but the two rankings, [deduplicated_chinese.txt] and
    [deduplicated_english.txt]: the order of the keys of equal count in
    them is all a run leaves open. *)
Theorem outcomes_differ_in_rankings_only `{sorter : sort.Sorter} (a : answers)
    (fs : string -> sink) (w w1 w2 : world) :
  main a fs w w1 -> main a fs w w2 ->
  stdout w1 = stdout w2 /\
  forall p, p <> chineseFileDedup -> p <> englishFileDedup ->
            files w1 !! p = files w2 !! p.
Proof.
  unfold main. destruct (dialog_err a); [by intros -> ->|].
  case_decide; [by intros -> ->|].
  destruct (open_err a); [by intros -> ->|].
  destruct (scanner_err a); [by intros -> ->|].
  apply report_outcomes.
Qed.

Lemma outcomes_differ_in_rankings_only_witness :
  exists w1 w2,
    main (sorter := insertion) cat_cat_dog disk_full blank w1 /\
    main (sorter := insertion) cat_cat_dog disk_full blank w2 /\
    stdout w1 = stdout w2 /\
    files w1 !! chineseFileDup = files w2 !! chineseFileDup.
Proof.
  destruct (main_total (sorter := insertion) cat_cat_dog disk_full blank)
    as [w1 H1].
  destruct (main_total (sorter := insertion) cat_cat_dog disk_full blank)
    as [w2 H2].
  exists w1, w2. split; [exact H1|]. split; [exact H2|].
  destruct (outcomes_differ_in_rankings_only (sorter := insertion) cat_cat_dog
              disk_full blank w1 w2 H1 H2) as [Hout Hfiles].
  split; [exact Hout|]. apply Hfiles; discriminate.
Defined.

(** X20: the tables do not depend on the order of the lines: the scan of
    the same lines in another order builds the same table for every
    category, provided the number of tokens fits in an [int]. *)
Theorem tables_ignore_line_order (c : category) (lines1 lines2 : list string) :
  lines1 ≡ₚ lines2 ->
  (Z.of_nat (List.length (tokens c lines1)) <= maxInt)%Z ->
  FrequencyTable c (scan lines1) = FrequencyTable c (scan lines2).
Proof.
  intros Hperm Hlen.
  pose proof (tokens_Permutation c _ _ Hperm) as Htokens.
  assert (Hkeys : keys_of c lines1 ≡ₚ keys_of c lines2)
    by (unfold keys_of; by rewrite Htokens).
  apply table_eq; intros key.
  - by rewrite !scan_keys, Hkeys.
  - rewrite !scan_index; [| by rewrite <- Htokens | done].
    by rewrite (occurrences_Permutation key _ _ Hkeys).
Qed.

Lemma tables_ignore_line_order_witness :
  ["cat dog"; "Cat"] ≡ₚ ["Cat"; "cat dog"] /\
  FrequencyTable english_word (scan ["cat dog"; "Cat"])
  = FrequencyTable english_word (scan ["Cat"; "cat dog"]).
Proof.
  assert (Hperm : ["cat dog"; "Cat"] ≡ₚ ["Cat"; "cat dog"]) by apply perm_swap.
  split; [exact Hperm|].
  apply (tables_ignore_line_order english_word _ _ Hperm).
  vm_compute. discriminate.
Defined.
